(** * Hogsync validation module (src/validation.ts): path guard, size guard
    and flag-schema validator, embedded in Rocq. *)

From Stdlib Require Import String Ascii List Bool Arith Lia ZArith QArith.
From Stdlib Require Import DecimalString DecimalNat.
Import ListNotations.

Open Scope string_scope.
#[local] Set Warnings "-register-all".

(** ** JavaScript values and the error type *)

(** Values handed to the validators: JSON data plus [undefined].  A JS
    object is the list of its own enumerable entries, in the order
    [Object.entries] yields them. *)
Inductive jsval : Type :=
| JUndefined
| JNull
| JBool (b : bool)
| JNum (q : Q)
| JStr (s : string)
| JArr (xs : list jsval)
| JObj (fields : list (string * jsval)).

(** [class ValidationError extends HogsyncError] (errors.ts): message,
    [validationErrors] and the optional [context] record. *)
Record ValidationError : Type := mkValidationError {
  ve_message : string;
  ve_validationErrors : list string;
  ve_context : option (list (string * jsval))
}.

(** A call either returns a value or throws a [ValidationError]. *)
Inductive result (A : Type) : Type :=
| Ok (a : A)
| Throw (e : ValidationError).
Arguments Ok {A} a.
Arguments Throw {A} e.

(** ** Strings *)

Definition slash : ascii := "/"%char.
Definition nul : ascii := Ascii.zero.

Fixpoint has_char (c : ascii) (s : string) : bool :=
  match s with
  | EmptyString => false
  | String c' s' => Ascii.eqb c c' || has_char c s'
  end.

(** The double-quote character, for messages that quote a path. *)
Definition dq : string := String (ascii_of_nat 34) EmptyString.

(** [s.includes('\0')] *)
Definition has_nul (s : string) : bool := has_char nul s.

(** [`${n}`] for a non-negative integer. *)
Definition string_of_nat (n : nat) : string :=
  NilEmpty.string_of_uint (Nat.to_uint n).

Definition string_of_Z (z : Z) : string :=
  NilEmpty.string_of_int (Z.to_int z).

(** ** Node's [path.posix] (the library the module imports)

    A posix path is split at every ['/'] into segments.  Node's
    [normalizeString] walks the characters of a path and keeps a stack of
    segments: it skips empty and ["."] segments, pops on [".."] (or keeps the
    [".."] when [allowAboveRoot] holds and there is nothing to pop), and pushes
    every other segment.  It is written here on the segments directly. *)

Fixpoint split_slash (s : string) : list string :=
  match s with
  | EmptyString => [""]
  | String c rest =>
      let segs := split_slash rest in
      if Ascii.eqb c slash then "" :: segs
      else match segs with
           | [] => [String c ""]
           | seg :: segs' => String c seg :: segs'
           end
  end.

Fixpoint join_slash (segs : list string) : string :=
  match segs with
  | [] => ""
  | [seg] => seg
  | seg :: rest => seg ++ "/" ++ join_slash rest
  end.

(** One segment of [normalizeString]; [acc] is the output so far, last
    segment first. *)
Definition norm_step (allowAboveRoot : bool) (acc : list string) (seg : string)
  : list string :=
  if String.eqb seg "" || String.eqb seg "." then acc
  else if String.eqb seg ".." then
    match acc with
    | top :: acc' =>
        if String.eqb top ".." then
          (if allowAboveRoot then ".." :: acc else acc)
        else acc'
    | [] => if allowAboveRoot then [".."] else []
    end
  else seg :: acc.

Definition norm_segs (allowAboveRoot : bool) (segs : list string) : list string :=
  rev (fold_left (norm_step allowAboveRoot) segs []).

Definition normalizeString (path : string) (allowAboveRoot : bool) : string :=
  join_slash (norm_segs allowAboveRoot (split_slash path)).

Definition is_absolute (p : string) : bool :=
  match p with
  | String c _ => Ascii.eqb c slash
  | EmptyString => false
  end.

Fixpoint last_char (s : string) : option ascii :=
  match s with
  | EmptyString => None
  | String c EmptyString => Some c
  | String _ s' => last_char s'
  end.

(** [path.posix.normalize] *)
Definition normalize (path : string) : string :=
  if String.eqb path "" then "." else
  let isAbsolute := is_absolute path in
  let trailingSeparator :=
    match last_char path with Some c => Ascii.eqb c slash | None => false end in
  let p := normalizeString path (negb isAbsolute) in
  if String.eqb p "" then
    (if isAbsolute then "/" else if trailingSeparator then "./" else ".")
  else
    let p := if trailingSeparator then p ++ "/" else p in
    if isAbsolute then "/" ++ p else p.

(** The right-to-left loop of [path.posix.resolve]: prepend each non-empty
    argument, stop at the first absolute one.  The working directory comes
    last (index [-1]). *)
Fixpoint resolve_loop (rargs : list string) (resolvedPath : string)
  : string * bool :=
  match rargs with
  | [] => (resolvedPath, false)
  | p :: rest =>
      if String.eqb p "" then resolve_loop rest resolvedPath
      else
        let rp := p ++ "/" ++ resolvedPath in
        if is_absolute p then (rp, true) else resolve_loop rest rp
  end.

(** [path.posix.resolve(...args)] with [process.cwd()] = [cwd]. *)
Definition resolve (cwd : string) (args : list string) : string :=
  let '(rp, resolvedAbsolute) := resolve_loop (app (rev args) [cwd]) "" in
  let np := normalizeString rp (negb resolvedAbsolute) in
  if resolvedAbsolute then "/" ++ np
  else if String.eqb np "" then "." else np.

(** Segments of a resolved (absolute, normalized) path. *)
Definition segs_of (p : string) : list string :=
  filter (fun s => negb (String.eqb s "")) (split_slash p).

Fixpoint common_prefix_len (xs ys : list string) : nat :=
  match xs, ys with
  | x :: xs', y :: ys' =>
      if String.eqb x y then S (common_prefix_len xs' ys') else 0
  | _, _ => 0
  end.

(** [path.posix.relative(from, to)]: both sides are resolved; after the
    longest common run of segments, one [".."] per remaining segment of
    [from], then the rest of [to].  Node computes the common run on the
    characters up to the last common ['/'], which on resolved paths is the
    common run of whole segments. *)
Definition relative (cwd from to : string) : string :=
  if String.eqb from to then "" else
  let from' := resolve cwd [from] in
  let to' := resolve cwd [to] in
  if String.eqb from' to' then "" else
  let fs := segs_of from' in
  let ts := segs_of to' in
  let c := common_prefix_len fs ts in
  join_slash (app (repeat ".." (length fs - c)) (skipn c ts)).

(** ** validatePath *)

Definition js_falsy (v : jsval) : bool :=
  match v with
  | JUndefined | JNull => true
  | JBool b => negb b
  | JNum q => Qeq_bool q 0
  | JStr s => String.eqb s ""
  | JArr _ | JObj _ => false
  end.

Definition msg_invalid_path : string :=
  "Invalid file path: path must be a non-empty string".
Definition msg_traversal : string :=
  "Path traversal detected: file path must be within the base directory".
Definition msg_null_bytes : string :=
  "Invalid file path: null bytes not allowed".

(** [validatePath(filePath, basePath)]; [cwd] is [process.cwd()]. *)
Definition validatePath (cwd : string) (filePath : jsval) (basePath : string)
  : result string :=
  match filePath with
  | JStr fp =>
      if js_falsy filePath then
        Throw (mkValidationError msg_invalid_path []
                 (Some [("filePath", filePath); ("basePath", JStr basePath)]))
      else
      let normalizedPath := normalize fp in
      let resolvedPath := resolve cwd [basePath; normalizedPath] in
      let resolvedBase := resolve cwd [basePath] in
      let relativePath := relative cwd resolvedBase resolvedPath in
      if String.prefix ".." relativePath
         || negb (String.eqb (resolve cwd [resolvedBase; relativePath]) resolvedPath)
      then
        Throw (mkValidationError msg_traversal
                 ["Path " ++ dq ++ fp ++ dq ++ " resolves outside base directory "
                    ++ dq ++ basePath ++ dq]
                 (Some [("filePath", filePath); ("basePath", JStr basePath);
                        ("resolvedPath", JStr resolvedPath);
                        ("relativePath", JStr relativePath)]))
      else if has_nul normalizedPath then
        Throw (mkValidationError msg_null_bytes []
                 (Some [("filePath", filePath); ("basePath", JStr basePath)]))
      else Ok resolvedPath
  | _ =>
      (* [!filePath || typeof filePath !== 'string'] *)
      Throw (mkValidationError msg_invalid_path []
               (Some [("filePath", filePath); ("basePath", JStr basePath)]))
  end.

(** ** validateFileSize *)

(** What [Bun.file(filePath)] reports: no file, a file of [n] bytes, or a
    failure of [file.exists()] itself (permissions, I/O) with its message. *)
Inductive file_status : Type :=
| FileMissing
| FileSize (n : N)
| FileStatFails (msg : string).

Definition msg_not_found : string := "File does not exist".
Definition msg_too_large : string := "File size exceeds maximum allowed size".
Definition msg_check_failed : string := "Failed to check file size".

(** [validateFileSize(filePath, maxSizeBytes = 1024 * 1024)], with the file
    system [fs]; [None] for [maxSizeBytes] is the default argument.  The
    [catch] rethrows a [ValidationError] unchanged and wraps anything else. *)
Definition validateFileSize (fs : string -> file_status) (filePath : string)
    (maxSizeBytes : option N) : result unit :=
  let maxSizeBytes := match maxSizeBytes with Some m => m | None => (1024 * 1024)%N end in
  match fs filePath with
  | FileStatFails m =>
      Throw (mkValidationError msg_check_failed [m] (Some [("filePath", JStr filePath)]))
  | FileMissing =>
      Throw (mkValidationError msg_not_found ["File not found: " ++ filePath]
               (Some [("filePath", JStr filePath)]))
  | FileSize stats =>
      if (maxSizeBytes <? stats)%N then
        Throw (mkValidationError msg_too_large
                 ["File size: " ++ string_of_nat (N.to_nat stats) ++ " bytes, maximum: "
                    ++ string_of_nat (N.to_nat maxSizeBytes) ++ " bytes"]
                 (Some [("filePath", JStr filePath);
                        ("fileSize", JNum (inject_Z (Z.of_N stats)));
                        ("maxSize", JNum (inject_Z (Z.of_N maxSizeBytes)))]))
      else Ok tt
  end.

(** ** The flag schema *)

(** A schema is the JS object literal it is written as: a list of keywords
    and their values.  [SPattern] is a [pattern] string together with the
    test of the [RegExp] it compiles to. *)
Inductive schema : Type :=
| Schema (kws : list (string * sval))
with sval : Type :=
| SStr (s : string)
| SNum (z : Z)
| SBool (b : bool)
| SStrs (l : list string)
| SSchema (s : schema)
| SSchemas (l : list schema)
| SProps (ps : list (string * schema))
| SPattern (src : string) (test : string -> bool).

Fixpoint assoc {A : Type} (l : list (string * A)) (k : string) : option A :=
  match l with
  | [] => None
  | (k', v) :: l' => if String.eqb k k' then Some v else assoc l' k
  end.

(** [schema.<kw>] *)
Definition sc_get (sch : schema) (kw : string) : option sval :=
  match sch with Schema kws => assoc kws kw end.

(** Names an object literal inherits from [Object.prototype]. *)
Definition object_proto_members : list string :=
  ["constructor"; "__proto__"; "hasOwnProperty"; "isPrototypeOf";
   "propertyIsEnumerable"; "toString"; "valueOf"; "toLocaleString";
   "__defineGetter__"; "__defineSetter__"; "__lookupGetter__"; "__lookupSetter__"].

(** Names an array inherits from [Array.prototype]. *)
Definition array_proto_members : list string :=
  ["at"; "concat"; "copyWithin"; "entries"; "every"; "fill"; "filter"; "find";
   "findIndex"; "findLast"; "findLastIndex"; "flat"; "flatMap"; "forEach";
   "includes"; "indexOf"; "join"; "keys"; "lastIndexOf"; "map"; "pop"; "push";
   "reduce"; "reduceRight"; "reverse"; "shift"; "slice"; "some"; "sort";
   "splice"; "toReversed"; "toSorted"; "toSpliced"; "unshift"; "values"; "with"].

Definition is_object_proto_member (k : string) : bool :=
  existsb (String.eqb k) object_proto_members.

(** [schema.properties[key]] on an object literal: an own property, or else
    a member inherited from [Object.prototype] (a function or
    [Object.prototype] itself), which reads [undefined] for every schema
    keyword, so it behaves as the empty schema. *)
Definition prop_lookup (ps : list (string * schema)) (k : string) : option schema :=
  match assoc ps k with
  | Some s => Some s
  | None => if is_object_proto_member k then Some (Schema []) else None
  end.

(** ** JS value helpers *)

Definition typeof_is_string (v : jsval) : bool :=
  match v with JStr _ => true | _ => false end.
Definition typeof_is_number (v : jsval) : bool :=
  match v with JNum _ => true | _ => false end.
Definition typeof_is_boolean (v : jsval) : bool :=
  match v with JBool _ => true | _ => false end.
Definition typeof_is_object (v : jsval) : bool :=
  match v with JNull | JArr _ | JObj _ => true | _ => false end.
Definition is_array (v : jsval) : bool :=
  match v with JArr _ => true | _ => false end.
Definition is_plain_object (v : jsval) : bool :=
  match v with JObj _ => true | _ => false end.

(** A canonical array index ["0"], ["1"], ... below [len]. *)
Definition is_array_index (k : string) (len : nat) : bool :=
  match NilEmpty.uint_of_string k with
  | Some u => let i := Nat.of_uint u in String.eqb (string_of_nat i) k && Nat.ltb i len
  | None => false
  end.

(** [key in obj] *)
Definition js_in (data : jsval) (k : string) : bool :=
  match data with
  | JObj fs => existsb (fun kv => String.eqb (fst kv) k) fs || is_object_proto_member k
  | JArr xs =>
      is_array_index k (length xs) || String.eqb k "length"
      || existsb (String.eqb k) array_proto_members || is_object_proto_member k
  | _ => false
  end.

(** [obj[k]]; an inherited method is a function, a non-null object, shown
    here as [JObj []]. *)
Definition js_get (data : jsval) (k : string) : jsval :=
  match data with
  | JObj fs =>
      match assoc fs k with
      | Some v => v
      | None => if is_object_proto_member k then JObj [] else JUndefined
      end
  | JArr xs =>
      if is_array_index k (length xs) then
        match NilEmpty.uint_of_string k with
        | Some u => nth (Nat.of_uint u) xs JUndefined
        | None => JUndefined
        end
      else if String.eqb k "length" then JNum (inject_Z (Z.of_nat (length xs)))
      else if existsb (String.eqb k) array_proto_members || is_object_proto_member k
      then JObj []
      else JUndefined
  | _ => JUndefined
  end.

(** [Object.entries(obj)] *)
Fixpoint index_entries (i : nat) (xs : list jsval) : list (string * jsval) :=
  match xs with
  | [] => []
  | x :: xs' => (string_of_nat i, x) :: index_entries (S i) xs'
  end.

Definition object_entries (data : jsval) : list (string * jsval) :=
  match data with
  | JObj fs => fs
  | JArr xs => index_entries 0 xs
  | _ => []
  end.

Definition js_truthy_sval (v : option sval) : bool :=
  match v with
  | None => false
  | Some (SStr s) => negb (String.eqb s "")
  | Some (SNum z) => negb (Z.eqb z 0%Z)
  | Some (SBool b) => b
  | Some _ => true
  end.

(** ** validateProperty *)

Definition Q_of_Z (z : Z) : Q := inject_Z z.

(** The type checks, each of which returns early with its one error. *)
Definition type_error (value : jsval) (sch : schema) (propertyName : string)
  : option string :=
  match sc_get sch "type" with
  | Some (SStr t) =>
      if String.eqb t "string" && negb (typeof_is_string value) then
        Some (propertyName ++ " must be a string")
      else if String.eqb t "number" && negb (typeof_is_number value) then
        Some (propertyName ++ " must be a number")
      else if String.eqb t "boolean" && negb (typeof_is_boolean value) then
        Some (propertyName ++ " must be a boolean")
      else if String.eqb t "array" && negb (is_array value) then
        Some (propertyName ++ " must be an array")
      else if String.eqb t "object" && negb (is_plain_object value) then
        Some (propertyName ++ " must be an object")
      else None
  | _ => None
  end.

(** String validations: [minLength], [maxLength], [pattern]. *)
Definition string_errors (value : jsval) (sch : schema) (propertyName : string)
  : list string :=
  match value with
  | JStr v =>
      app (match sc_get sch "minLength" with
           | Some (SNum m) =>
               if negb (Z.eqb m 0%Z) && Z.ltb (Z.of_nat (String.length v)) m then
                 [propertyName ++ " must be at least " ++ string_of_Z m ++ " characters long"]
               else []
           | _ => []
           end)
      (app (match sc_get sch "maxLength" with
            | Some (SNum m) =>
                if negb (Z.eqb m 0%Z) && Z.ltb m (Z.of_nat (String.length v)) then
                  [propertyName ++ " must be no more than " ++ string_of_Z m
                     ++ " characters long"]
                else []
            | _ => []
            end)
           (match sc_get sch "pattern" with
            | Some (SPattern _ test) =>
                if negb (test v) then
                  [propertyName ++ " format is invalid: "
                     ++ (match sc_get sch "description" with
                         | Some (SStr d) => if String.eqb d "" then "must match pattern" else d
                         | _ => "must match pattern"
                         end)]
                else []
            | _ => []
            end))
  | _ => []
  end.

(** Number validations: [minimum], [maximum] (compared with [!== undefined]). *)
Definition number_errors (value : jsval) (sch : schema) (propertyName : string)
  : list string :=
  match value with
  | JNum q =>
      app (match sc_get sch "minimum" with
           | Some (SNum m) =>
               if negb (Qle_bool (Q_of_Z m) q) then
                 [propertyName ++ " must be at least " ++ string_of_Z m]
               else []
           | _ => []
           end)
          (match sc_get sch "maximum" with
           | Some (SNum m) =>
               if negb (Qle_bool q (Q_of_Z m)) then
                 [propertyName ++ " must be no more than " ++ string_of_Z m]
               else []
           | _ => []
           end)
  | _ => []
  end.

Fixpoint join_comma (l : list string) : string :=
  match l with
  | [] => ""
  | [x] => x
  | x :: l' => x ++ ", " ++ join_comma l'
  end.

(** [schema.enum && !schema.enum.includes(value)] *)
Definition enum_errors (value : jsval) (sch : schema) (propertyName : string)
  : list string :=
  match sc_get sch "enum" with
  | Some (SStrs vals) =>
      let included :=
        match value with JStr s => existsb (String.eqb s) vals | _ => false end in
      if included then [] else [propertyName ++ " must be one of: " ++ join_comma vals]
  | _ => []
  end.

(** [validateProperty(value, schema, propertyName)] *)
Fixpoint validateProperty (value : jsval) (sch : schema) (propertyName : string)
  {struct value} : list string :=
  match type_error value sch propertyName with
  | Some e => [e]
  | None =>
      app (string_errors value sch propertyName)
      (app (number_errors value sch propertyName)
      (app (match value, sc_get sch "items" with
            | JArr xs, Some (SSchema it) =>
                (fix items_loop (i : nat) (xs : list jsval) : list string :=
                   match xs with
                   | [] => []
                   | x :: xs' =>
                       app (validateProperty x it
                              (propertyName ++ "[" ++ string_of_nat i ++ "]"))
                           (items_loop (S i) xs')
                   end) 0%nat xs
            | _, _ => []
            end)
      (app (match value, sc_get sch "properties" with
            | JObj fs, Some (SProps ps) =>
                (fix props_loop (fs : list (string * jsval)) : list string :=
                   match fs with
                   | [] => []
                   | (k, v) :: fs' =>
                       app (match prop_lookup ps k with
                            | Some ps' => validateProperty v ps' (propertyName ++ "." ++ k)
                            | None => []
                            end)
                           (props_loop fs')
                   end) fs
            | _, _ => []
            end)
           (enum_errors value sch propertyName))))
  end.

(** The two loops of [validateProperty], as functions of their own. *)
Definition items_errors (it : schema) (propertyName : string)
  : nat -> list jsval -> list string :=
  fix items_loop (i : nat) (xs : list jsval) : list string :=
    match xs with
    | [] => []
    | x :: xs' =>
        app (validateProperty x it (propertyName ++ "[" ++ string_of_nat i ++ "]"))
            (items_loop (S i) xs')
    end.

Definition props_errors (ps : list (string * schema)) (propertyName : string)
  : list (string * jsval) -> list string :=
  fix props_loop (fs : list (string * jsval)) : list string :=
    match fs with
    | [] => []
    | (k, v) :: fs' =>
        app (match prop_lookup ps k with
             | Some ps' => validateProperty v ps' (propertyName ++ "." ++ k)
             | None => []
             end)
            (props_loop fs')
    end.

(** ** validateSchema *)

Definition is_undefined_or_null (v : jsval) : bool :=
  match v with JUndefined | JNull => true | _ => false end.

(** The [required] loop. *)
Definition required_errors (obj : jsval) (required : list string) : list string :=
  flat_map (fun field =>
              if negb (js_in obj field) || is_undefined_or_null (js_get obj field)
              then ["Missing required field: " ++ field] else [])
           required.

(** The body of the [Object.entries] loop for one entry. *)
Definition entry_errors (ps : list (string * schema)) (additionalProperties : bool)
    (entry : string * jsval) : list string :=
  let '(key, value) := entry in
  match prop_lookup ps key with
  | None => if negb additionalProperties then ["Unknown property: " ++ key] else []
  | Some propSchema => validateProperty value propSchema key
  end.

(** [validateSchema(data, schema)] *)
Definition validateSchema (data : jsval) (sch : schema) : list string :=
  if negb (typeof_is_object data) || (match data with JNull => true | _ => false end)
  then ["Data must be an object"]
  else
    let required := match sc_get sch "required" with Some (SStrs l) => l | _ => [] end in
    let ps := match sc_get sch "properties" with Some (SProps ps) => ps | _ => [] end in
    app (required_errors data required)
        (flat_map (entry_errors ps (js_truthy_sval (sc_get sch "additionalProperties")))
                  (object_entries data)).

(** ** FLAG_SCHEMA *)

Definition is_lower_alnum (c : ascii) : bool :=
  let n := nat_of_ascii c in
  (Nat.leb 97 n && Nat.leb n 122) || (Nat.leb 48 n && Nat.leb n 57).

Definition is_lower_alnum_or_hyphen (c : ascii) : bool :=
  is_lower_alnum c || Ascii.eqb c "-"%char.

(** The test of [new RegExp('^[a-z0-9][a-z0-9-]*[a-z0-9]$|^[a-z0-9]$')]:
    both alternatives are anchored at both ends, so a string passes when it
    is one [[a-z0-9]], or a [[a-z0-9]], any [[a-z0-9-]]'s and a final
    [[a-z0-9]]. *)
Definition key_pattern_test (s : string) : bool :=
  match list_ascii_of_string s with
  | [c] => is_lower_alnum c
  | c :: rest =>
      match rev rest with
      | last :: mid_rev =>
          is_lower_alnum c && forallb is_lower_alnum_or_hyphen mid_rev
          && is_lower_alnum last
      | [] => false
      end
  | [] => false
  end.

Definition rollout_percentage_schema : schema :=
  Schema [("type", SStr "number"); ("minimum", SNum 0); ("maximum", SNum 100)].

Definition variant_item_schema : schema :=
  Schema [("type", SStr "object");
          ("required", SStrs ["key"; "rollout_percentage"]);
          ("properties", SProps [
             ("key", Schema [("type", SStr "string"); ("minLength", SNum 1)]);
             ("name", Schema [("type", SStr "string")]);
             ("rollout_percentage", rollout_percentage_schema)])].

Definition group_item_schema : schema :=
  Schema [("type", SStr "object");
          ("properties", SProps [
             ("properties", Schema [
                ("type", SStr "array");
                ("items", SSchema (Schema [
                   ("type", SStr "object");
                   ("required", SStrs ["key"; "value"]);
                   ("properties", SProps [
                      ("key", Schema [("type", SStr "string"); ("minLength", SNum 1)]);
                      ("value", Schema [("oneOf", SSchemas [
                         Schema [("type", SStr "string")];
                         Schema [("type", SStr "number")];
                         Schema [("type", SStr "boolean")];
                         Schema [("type", SStr "array");
                                 ("items", SSchema (Schema [("type", SStr "string")]))]])]);
                      ("operator", Schema [("type", SStr "string")]);
                      ("type", Schema [("type", SStr "string");
                                       ("enum", SStrs ["person"; "event"; "group"])])])]))]);
             ("rollout_percentage", rollout_percentage_schema);
             ("variant", Schema [("type", SStr "string")])])].

Definition FLAG_SCHEMA : schema :=
  Schema [
    ("type", SStr "object");
    ("required", SStrs ["key"; "name"; "active"]);
    ("properties", SProps [
       ("key", Schema [
          ("type", SStr "string");
          ("pattern", SPattern "^[a-z0-9][a-z0-9-]*[a-z0-9]$|^[a-z0-9]$" key_pattern_test);
          ("minLength", SNum 1);
          ("maxLength", SNum 100);
          ("description", SStr "Flag key must be lowercase alphanumeric with hyphens, no leading/trailing hyphens")]);
       ("name", Schema [
          ("type", SStr "string"); ("minLength", SNum 1); ("maxLength", SNum 200);
          ("description", SStr "Flag name must be a non-empty string")]);
       ("active", Schema [
          ("type", SStr "boolean");
          ("description", SStr "Flag active status must be a boolean")]);
       ("description", Schema [
          ("type", SStr "string"); ("maxLength", SNum 1000);
          ("description", SStr "Optional description with reasonable length limit")]);
       ("filters", Schema [
          ("type", SStr "object");
          ("properties", SProps [
             ("groups", Schema [("type", SStr "array"); ("items", SSchema group_item_schema)]);
             ("multivariate", Schema [
                ("type", SStr "object");
                ("properties", SProps [
                   ("variants", Schema [("type", SStr "array");
                                        ("items", SSchema variant_item_schema)])])]);
             ("payloads", Schema [("type", SStr "object")])])]);
       ("ensure_experience_continues", Schema [("type", SStr "boolean")]);
       ("variants", Schema [("type", SStr "array"); ("items", SSchema variant_item_schema)])]);
    ("additionalProperties", SBool false)].

(** [validateFlagSchema(flagData, fileName?)] *)
Definition validateFlagSchema (flagData : jsval) (fileName : option string)
  : result jsval :=
  let errors := validateSchema flagData FLAG_SCHEMA in
  if Nat.ltb 0 (length errors) then
    let fname := match fileName with
                 | Some f => if String.eqb f "" then None else Some f
                 | None => None
                 end in
    Throw (mkValidationError
             ("Feature flag validation failed"
                ++ match fname with Some f => " in " ++ f | None => "" end)
             errors
             (match fname with Some f => Some [("fileName", JStr f)] | None => None end))
  else Ok flagData.

(** ** Error kinds

    The module tells its failures apart by the message it gives the one
    [ValidationError] class. *)
Inductive ErrorKind : Type :=
| InvalidPath
| PathTraversal
| FileNotFound
| FileTooLarge
| FileCheckFailed
| SchemaViolation.

Definition kind_of (e : ValidationError) : ErrorKind :=
  let m := ve_message e in
  if String.eqb m msg_invalid_path || String.eqb m msg_null_bytes then InvalidPath
  else if String.eqb m msg_traversal then PathTraversal
  else if String.eqb m msg_not_found then FileNotFound
  else if String.eqb m msg_too_large then FileTooLarge
  else if String.eqb m msg_check_failed then FileCheckFailed
  else SchemaViolation.

Definition result_kind {A : Type} (r : result A) : option ErrorKind :=
  match r with Ok _ => None | Throw e => Some (kind_of e) end.

Definition errors_of {A : Type} (r : result A) : list string :=
  match r with Ok _ => [] | Throw e => ve_validationErrors e end.

Definition flag_properties : list (string * schema) :=
  match sc_get FLAG_SCHEMA "properties" with Some (SProps ps) => ps | _ => [] end.

(** ** Specification predicates *)

(** A segment of a resolved path: not empty, not ["."] or [".."], no ['/']. *)
Definition seg_ok (s : string) : bool :=
  negb (String.eqb s "") && negb (String.eqb s ".") && negb (String.eqb s "..")
  && negb (has_char slash s).

Definition abs_path (segs : list string) : string := "/" ++ join_slash segs.

(** [p] is [base] or lies below it: [base + '/'] is a prefix of [p] (for the
    root, ['/'] is). *)
Definition contained_in (base p : string) : bool :=
  String.eqb p base
  || String.prefix (if String.eqb base "/" then "/" else base ++ "/") p.

(** [needle] occurs in [s]. *)
Fixpoint contains_sub (needle s : string) : bool :=
  String.prefix needle s
  || match s with EmptyString => false | String _ s' => contains_sub needle s' end.

Definition backslash : ascii := ascii_of_nat 92.

(** A traversal sequence as the spec names them: ['../'] or ['..\']. *)
Definition has_traversal_seq (s : string) : bool :=
  contains_sub "../" s || contains_sub (".." ++ String backslash EmptyString) s.

(** The key pattern as the spec writes it, [^[a-z0-9]([a-z0-9-]*[a-z0-9])?$]. *)
Definition spec_key_regex (s : string) : bool :=
  match list_ascii_of_string s with
  | c :: rest =>
      is_lower_alnum c
      && match rest with
         | [] => true
         | _ => forallb is_lower_alnum_or_hyphen (removelast rest)
                && is_lower_alnum (last rest "a"%char)
         end
  | [] => false
  end.

Definition is_upper (c : ascii) : bool :=
  let n := nat_of_ascii c in Nat.leb 65 n && Nat.leb n 90.

(** Keys the spec lists as rejected: an uppercase letter, an underscore, a
    space, a leading or trailing hyphen, length 0 or over 100. *)
Definition key_is_bad (k : string) : bool :=
  let cs := list_ascii_of_string k in
  existsb is_upper cs || existsb (Ascii.eqb "_"%char) cs
  || existsb (Ascii.eqb " "%char) cs
  || match cs with c :: _ => Ascii.eqb c "-"%char | [] => false end
  || match rev cs with c :: _ => Ascii.eqb c "-"%char | [] => false end
  || Nat.eqb (String.length k) 0 || Nat.ltb 100 (String.length k).

Definition out_of_percent_range (r : Q) : bool :=
  negb (Qle_bool 0 r && Qle_bool r 100).

(** The violation a [rollout_percentage] of [r] at [path] produces. *)
Definition rollout_violation (path : string) (r : Q) : string :=
  if Qle_bool 0 r then path ++ " must be no more than 100"
  else path ++ " must be at least 0".

Definition missing_msg (f : string) : string := "Missing required field: " ++ f.

(** A required field counts as missing: no own entry, or [undefined] or
    [null] there. *)
Definition field_absent (fields : list (string * jsval)) (f : string) : bool :=
  match assoc fields f with
  | None | Some JUndefined | Some JNull => true
  | Some _ => false
  end.

(** The schema of the top-level [key] property. *)
Definition key_schema : schema :=
  match prop_lookup flag_properties "key" with Some s => s | None => Schema [] end.

(** ** validateDirectoryPath *)

(** [validateDirectoryPath(dirPath, basePath)] delegates to [validatePath]. *)
Definition validateDirectoryPath (cwd : string) (dirPath : jsval) (basePath : string)
  : result string :=
  validatePath cwd dirPath basePath.

(** ** validateConfig *)

Definition msg_config_not_object : string := "Configuration must be an object".
Definition msg_config_failed : string := "Configuration validation failed".

Definition is_null (v : jsval) : bool := match v with JNull => true | _ => false end.
Definition is_undefined (v : jsval) : bool := match v with JUndefined => true | _ => false end.

(** [!v || typeof v !== 'string'] *)
Definition not_nonempty_string (v : jsval) : bool :=
  js_falsy v || negb (typeof_is_string v).

(** [validateConfig(config)].  None of the keys it reads ([flagsDir],
    [outputFile], [posthog], [host], [projectId], [apiToken]) is a member of
    [Object.prototype] or [Array.prototype], so [js_get] finds only own
    entries for them. *)
Definition validateConfig (config : jsval) : result unit :=
  if js_falsy config || negb (typeof_is_object config) then
    Throw (mkValidationError msg_config_not_object [] (Some [("config", config)]))
  else
  let configObj := config in
  let errors :=
    app (if not_nonempty_string (js_get configObj "flagsDir")
         then ["flagsDir must be a non-empty string"] else [])
    (app (if not_nonempty_string (js_get configObj "outputFile")
          then ["outputFile must be a non-empty string"] else [])
    (let posthogObj := js_get configObj "posthog" in
     if js_falsy posthogObj || negb (typeof_is_object posthogObj) then
       ["posthog configuration must be an object"]
     else
       app (if not_nonempty_string (js_get posthogObj "host")
            then ["posthog.host must be a non-empty string"] else [])
       (app (if negb (is_undefined (js_get posthogObj "projectId"))
                && negb (typeof_is_string (js_get posthogObj "projectId"))
             then ["posthog.projectId must be a string"] else [])
            (if negb (is_undefined (js_get posthogObj "apiToken"))
                && negb (typeof_is_string (js_get posthogObj "apiToken"))
             then ["posthog.apiToken must be a string"] else [])))) in
  if Nat.ltb 0 (length errors) then
    Throw (mkValidationError msg_config_failed errors (Some [("config", config)]))
  else Ok tt.

(** ** loadConfig (src/config.ts) *)

(** [process.env.VAR || dflt]; [env] gives a variable's value, [None] when
    it is unset. *)
Definition env_or (env : string -> option string) (var dflt : string) : string :=
  match env var with
  | Some v => if String.eqb v "" then dflt else v
  | None => dflt
  end.

Definition defaultConfig (env : string -> option string) : jsval :=
  JObj [("flagsDir", JStr "feature-flags");
        ("outputFile", JStr "src/generated/feature-flags.ts");
        ("posthog", JObj [
           ("host", JStr (env_or env "POSTHOG_HOST" "https://app.posthog.com"));
           ("projectId", JStr (env_or env "POSTHOG_PROJECT_ID" ""));
           ("apiToken", JStr (env_or env "POSTHOG_API_TOKEN" ""))]);
        ("generation", JObj [
           ("includeLocalConfigs", JBool true);
           ("namingConvention", JStr "snake_case");
           ("generateReactTemplate", JBool false)])].

(** Defining a property on an object literal: an own key is overwritten in
    place, a new key is added at the end. *)
Fixpoint set_entry (fs : list (string * jsval)) (k : string) (v : jsval)
  : list (string * jsval) :=
  match fs with
  | [] => [(k, v)]
  | (k', v') :: fs' =>
      if String.eqb k k' then (k', v) :: fs' else (k', v') :: set_entry fs' k v
  end.

(** The own enumerable entries [...v] copies: an object's entries, the
    indexed elements of an array or of a string, nothing for [undefined],
    [null], booleans and numbers. *)
Definition spread_entries (v : jsval) : list (string * jsval) :=
  match v with
  | JObj fs => fs
  | JArr xs => index_entries 0 xs
  | JStr s => index_entries 0 (map (fun c => JStr (String c EmptyString))
                                   (list_ascii_of_string s))
  | _ => []
  end.

(** [{...fs, ...v}] *)
Definition spread_into (fs : list (string * jsval)) (v : jsval) : list (string * jsval) :=
  fold_left (fun acc kv => set_entry acc (fst kv) (snd kv)) (spread_entries v) fs.

(** [mergedConfig] in [loadConfig]:
    [{...defaultConfig, ...userConfig,
      posthog: {...defaultConfig.posthog, ...userConfig.posthog},
      generation: {...defaultConfig.generation, ...userConfig.generation}}]. *)
Definition mergedConfig (env : string -> option string) (userConfig : jsval) : jsval :=
  let defaultConfig := defaultConfig env in
  JObj (set_entry
          (set_entry (spread_into (spread_into [] defaultConfig) userConfig)
             "posthog"
             (JObj (spread_into (spread_into [] (js_get defaultConfig "posthog"))
                                (js_get userConfig "posthog"))))
          "generation"
          (JObj (spread_into (spread_into [] (js_get defaultConfig "generation"))
                             (js_get userConfig "generation")))).

(** How [loadConfig] ends: it resolves to a configuration, throws a
    [ValidationError] (from [validatePath] or [validateConfig]), or throws
    a plain [Error]. *)
Inductive load_result : Type :=
| Loaded (config : jsval)
| LoadThrows (e : ValidationError)
| LoadError (msg : string).

(** [loadConfig(configPath)] with [process.cwd()] = [cwd]; [fileExists] is
    [existsSync] and [importConfig] the value a config module that loads
    exports ([importedModule.default || importedModule] for ES modules). *)
Definition loadConfig (cwd : string) (env : string -> option string)
    (fileExists : string -> bool) (importConfig : string -> jsval) (configPath : string)
  : load_result :=
  match validatePath cwd (JStr configPath) cwd with
  | Throw e => LoadThrows e
  | Ok safeConfigPath =>
      if negb (fileExists safeConfigPath) then Loaded (defaultConfig env)
      else
        let userConfig := importConfig safeConfigPath in
        if negb (typeof_is_object userConfig) || is_null userConfig then
          LoadError "Config file must export an object"
        else
          let mergedConfig := mergedConfig env userConfig in
          match validateConfig mergedConfig with
          | Ok _ => Loaded mergedConfig
          | Throw e => LoadThrows e
          end
  end.

(** ** generateFlags (src/generator.ts) *)

(** [path.join(a, b)] *)
Definition path_join (a b : string) : string :=
  match filter (fun s => negb (String.eqb s "")) [a; b] with
  | [] => "."
  | parts => normalize (join_slash parts)
  end.

(** The body of the [for (const file of files)] loop of [generateFlags]:
    [Some validatedFlag], or [None] when it throws (the error is caught and
    logged).  [fs] is what [Bun.file] reports, [read] is [readFileSync]
    followed by [JSON.parse] ([None] when either throws). *)
Definition generate_one (fs : string -> file_status) (read : string -> option jsval)
    (safeFlagsDir file : string) : option jsval :=
  let filePath := path_join safeFlagsDir file in
  match validateFileSize fs filePath None with
  | Throw _ => None
  | Ok _ =>
      match read filePath with
      | None => None
      | Some json =>
          match validateFlagSchema json (Some file) with
          | Ok validatedFlag => Some validatedFlag
          | Throw _ => None
          end
      end
  end.

(** The loop: [keys] and [flagConfigs] after it. *)
Definition generate_loop (fs : string -> file_status) (read : string -> option jsval)
    (safeFlagsDir : string) (files : list string) : list jsval * list jsval :=
  fold_left (fun st file =>
               let '(keys, flagConfigs) := st in
               match generate_one fs read safeFlagsDir file with
               | Some validatedFlag =>
                   (app keys [js_get validatedFlag "key"], app flagConfigs [validatedFlag])
               | None => (keys, flagConfigs)
               end)
            files ([], []).

(** [\s] among the code units below 256. *)
Definition is_js_space (c : ascii) : bool :=
  let n := nat_of_ascii c in
  (Nat.leb 9 n && Nat.leb n 13) || Nat.eqb n 32 || Nat.eqb n 160.

(** [s.replace(/[-\s]/g, r)] *)
Fixpoint replace_dash_space (r s : string) : string :=
  match s with
  | EmptyString => EmptyString
  | String c s' =>
      (if Ascii.eqb c "-"%char || is_js_space c then r else String c EmptyString)
        ++ replace_dash_space r s'
  end.

(** [\w] *)
Definition is_word_char (c : ascii) : bool :=
  let n := nat_of_ascii c in
  (Nat.leb 65 n && Nat.leb n 90) || (Nat.leb 97 n && Nat.leb n 122)
  || (Nat.leb 48 n && Nat.leb n 57) || Nat.eqb n 95.

(** [toLowerCase] on a [\w] character. *)
Definition ascii_to_lower (c : ascii) : ascii :=
  let n := nat_of_ascii c in
  if Nat.leb 65 n && Nat.leb n 90 then ascii_of_nat (n + 32) else c.

(** [s.replace(/^\w/, (c) => c.toLowerCase())] *)
Definition lower_first_word_char (s : string) : string :=
  match s with
  | String c s' => if is_word_char c then String (ascii_to_lower c) s' else s
  | EmptyString => EmptyString
  end.

(** [formatConstantName(key)] under the naming [convention]; [None] when it
    throws [Invalid key provided to formatConstantName].  [toUpperCase],
    [String.prototype.toUpperCase], is used by [SCREAMING_SNAKE_CASE] only
    and left as a parameter. *)
Definition formatConstantName (toUpperCase : string -> string) (convention : string)
    (key : jsval) : option string :=
  match key with
  | JStr k =>
      if String.eqb k "" then None
      else if String.eqb convention "camelCase" then
        Some (lower_first_word_char (replace_dash_space "" k))
      else if String.eqb convention "SCREAMING_SNAKE_CASE" then
        Some (toUpperCase (replace_dash_space "_" k))
      else Some (replace_dash_space "_" k)
  | _ => None
  end.

(** ** handleValidate (cli.ts) *)

(** The body of its loop: [true] when the file is reported valid. *)
Definition validate_one (read : string -> option jsval) (safeFlagsDir file : string) : bool :=
  match read (path_join safeFlagsDir file) with
  | None => false
  | Some flag =>
      match validateFlagSchema flag (Some file) with
      | Ok _ => true
      | Throw _ => false
      end
  end.

(** [hasErrors] after the loop; [true] makes the command exit with code 1. *)
Definition handleValidate_hasErrors (read : string -> option jsval) (safeFlagsDir : string)
    (files : list string) : bool :=
  fold_left (fun hasErrors file =>
               if validate_one read safeFlagsDir file then hasErrors else true)
            files false.

(** ** getFormattedMessage (errors.ts) *)

(** [String(value)]; [numToString] is [Number.prototype.toString].  An
    array joins its elements with commas, [null] and [undefined] as empty
    strings. *)
Fixpoint js_String (numToString : Q -> string) (v : jsval) : string :=
  match v with
  | JUndefined => "undefined"
  | JNull => "null"
  | JBool b => if b then "true" else "false"
  | JNum q => numToString q
  | JStr s => s
  | JArr xs =>
      (fix join_elems (xs : list jsval) : string :=
         match xs with
         | [] => ""
         | x :: xs' =>
             (match x with JUndefined | JNull => "" | _ => js_String numToString x end)
             ++ (match xs' with [] => "" | _ => "," ++ join_elems xs' end)
         end) xs
  | JObj _ => "[object Object]"
  end.

(** [getFormattedMessage()] of a [ValidationError], whose [code] is
    [VALIDATION_ERROR]. *)
Definition getFormattedMessage (numToString : Q -> string) (e : ValidationError) : string :=
  "[" ++ "VALIDATION_ERROR" ++ "] " ++ ve_message e
  ++ match ve_context e with
     | Some ctx =>
         " (" ++ join_comma (map (fun kv => fst kv ++ ": " ++ js_String numToString (snd kv))
                                 ctx) ++ ")"
     | None => ""
     end.

(** [s] without its hyphens. *)
Fixpoint drop_hyphens (s : string) : string :=
  match s with
  | EmptyString => EmptyString
  | String c s' =>
      if Ascii.eqb c "-"%char then drop_hyphens s' else String c (drop_hyphens s')
  end.

(** The flags one file contributes to [flagConfigs]. *)
Definition generate_step (fs : string -> file_status) (read : string -> option jsval)
    (safeFlagsDir : string) (file : string) : list jsval :=
  match generate_one fs read safeFlagsDir file with Some f => [f] | None => [] end.

(** The number of nodes of a JSON value. *)
Fixpoint jsval_size (v : jsval) : nat :=
  match v with
  | JArr xs => S (list_sum (map jsval_size xs))
  | JObj fs => S (list_sum (map (fun kv => jsval_size (snd kv)) fs))
  | _ => 1
  end.

(** * Proofs *)

(** ** Strings *)

Lemma str_app_assoc : forall a b c : string, (a ++ b) ++ c = a ++ (b ++ c).
Proof. induction a as [|x a IH]; intros; simpl; [reflexivity | now rewrite IH]. Qed.

Lemma str_app_nil_r : forall a : string, a ++ "" = a.
Proof. induction a as [|x a IH]; simpl; [reflexivity | now rewrite IH]. Qed.

Lemma has_char_app : forall c a b,
  has_char c (a ++ b) = has_char c a || has_char c b.
Proof.
  intros c a b; induction a as [|x a IH]; simpl; [reflexivity|].
  now rewrite IH, orb_assoc.
Qed.

Lemma prefix_app : forall a b : string, String.prefix a (a ++ b) = true.
Proof.
  induction a as [|x a IH]; intro b; simpl; [now destruct b|].
  destruct (ascii_dec x x); [apply IH | contradiction].
Qed.

Lemma split_slash_nonnil : forall s, split_slash s <> [].
Proof.
  induction s as [|c s IH]; simpl; [discriminate|].
  destruct (Ascii.eqb c slash); [discriminate|].
  destruct (split_slash s); [contradiction | discriminate].
Qed.

Lemma split_slash_slash : forall s, split_slash (String slash s) = "" :: split_slash s.
Proof. reflexivity. Qed.

Lemma split_slash_app : forall a b,
  split_slash (a ++ String slash b) = app (split_slash a) (split_slash b).
Proof.
  induction a as [|c a IH]; intro b; [reflexivity|].
  simpl. rewrite IH. destruct (Ascii.eqb c slash); [reflexivity|].
  destruct (split_slash a) eqn:E; [exfalso; exact (split_slash_nonnil a E) | reflexivity].
Qed.

Lemma split_no_slash : forall s, has_char slash s = false -> split_slash s = [s].
Proof.
  induction s as [|c s IH]; cbn [has_char split_slash]; intro H; [reflexivity|].
  apply orb_false_iff in H as [H1 H2].
  rewrite Ascii.eqb_sym, H1, IH by exact H2. reflexivity.
Qed.

Lemma seg_ok_no_slash : forall s, seg_ok s = true -> has_char slash s = false.
Proof.
  intros s H; unfold seg_ok in H.
  destruct (has_char slash s); [now rewrite !andb_false_r in H | reflexivity].
Qed.

Lemma seg_ok_nonempty : forall s, seg_ok s = true -> s <> "".
Proof. intros s H E; subst; discriminate. Qed.

Lemma split_join : forall l, l <> [] -> Forall (fun s => has_char slash s = false) l ->
  split_slash (join_slash l) = l.
Proof.
  induction l as [|x l IH]; intros Hne HF; [congruence|].
  inversion HF as [|? ? Hx Hl]; subst.
  destruct l as [|y l'].
  - simpl. now apply split_no_slash.
  - change (join_slash (x :: y :: l')) with (x ++ String slash (join_slash (y :: l'))).
    rewrite split_slash_app, split_no_slash by exact Hx.
    rewrite IH by (discriminate || exact Hl). reflexivity.
Qed.

Lemma join_app : forall l1 l2, l1 <> [] -> l2 <> [] ->
  join_slash (app l1 l2) = join_slash l1 ++ "/" ++ join_slash l2.
Proof.
  induction l1 as [|x l1 IH]; intros l2 H1 H2; [congruence|].
  destruct l1 as [|y l1'].
  - simpl. destruct l2; [congruence | reflexivity].
  - change (app (x :: y :: l1') l2) with (x :: app (y :: l1') l2).
    change (join_slash (x :: app (y :: l1') l2))
      with (x ++ "/" ++ join_slash (app (y :: l1') l2)).
    rewrite IH by (discriminate || exact H2).
    change (join_slash (x :: y :: l1')) with (x ++ "/" ++ join_slash (y :: l1')).
    now rewrite !str_app_assoc.
Qed.

Lemma join_cons_nonempty : forall x l, x <> "" -> join_slash (x :: l) <> "".
Proof.
  intros x l Hx. destruct l as [|y l]; simpl; [exact Hx|].
  destruct x; [congruence | discriminate].
Qed.

Lemma has_char_join : forall c l, Ascii.eqb c slash = false ->
  Forall (fun s => has_char c s = false) l -> has_char c (join_slash l) = false.
Proof.
  intros c l Hc; induction l as [|x l IH]; intro HF; [reflexivity|].
  inversion HF; subst. destruct l as [|y l']; [assumption|].
  change (join_slash (x :: y :: l')) with (x ++ String slash (join_slash (y :: l'))).
  rewrite has_char_app. cbn [has_char]. rewrite Hc, IH by assumption. now rewrite H1.
Qed.

Lemma has_char_split : forall c s, Ascii.eqb c slash = false -> has_char c s = false ->
  Forall (fun seg => has_char c seg = false) (split_slash s).
Proof.
  intros c s Hc; induction s as [|x s IH]; intro H; simpl; [now repeat constructor|].
  apply orb_false_iff in H as [H1 H2].
  specialize (IH H2).
  destruct (Ascii.eqb x slash); [now constructor|].
  destruct (split_slash s) as [|seg segs]; [now repeat constructor; simpl; rewrite H1|].
  inversion IH; subst. constructor; [simpl; now rewrite H1 | assumption].
Qed.

(** ** Segment normalization *)

Lemma norm_step_ok : forall b acc s, seg_ok s = true -> norm_step b acc s = s :: acc.
Proof.
  intros b acc s H. unfold seg_ok in H. unfold norm_step.
  destruct (String.eqb s ""), (String.eqb s "."), (String.eqb s "..");
    simpl in *; try discriminate; reflexivity.
Qed.

Lemma fold_norm_ok : forall b l acc, Forall (fun s => seg_ok s = true) l ->
  fold_left (norm_step b) l acc = app (rev l) acc.
Proof.
  intros b l; induction l as [|x l IH]; intros acc H; simpl; [reflexivity|].
  inversion H; subst. rewrite norm_step_ok by assumption.
  rewrite IH by assumption. now rewrite <- app_assoc.
Qed.

Lemma fold_norm_join : forall b l acc, Forall (fun s => seg_ok s = true) l ->
  fold_left (norm_step b) (split_slash (join_slash l)) acc = app (rev l) acc.
Proof.
  intros b l acc H. destruct l as [|x l]; [reflexivity|].
  rewrite split_join.
  - now apply fold_norm_ok.
  - discriminate.
  - eapply Forall_impl; [|exact H]. exact seg_ok_no_slash.
Qed.

(** Without [allowAboveRoot], the output of [normalizeString] is clean. *)
Lemma norm_step_clean : forall acc s,
  Forall (fun x => seg_ok x = true) acc -> has_char slash s = false ->
  Forall (fun x => seg_ok x = true) (norm_step false acc s).
Proof.
  intros acc s Hacc Hs. unfold norm_step.
  destruct (String.eqb s "") eqn:E1; [exact Hacc|].
  destruct (String.eqb s ".") eqn:E2; [exact Hacc|]. simpl.
  destruct (String.eqb s "..") eqn:E3.
  - destruct acc as [|top acc']; [constructor|].
    destruct (String.eqb top ".."); [exact Hacc|]. now inversion Hacc.
  - constructor; [|exact Hacc]. unfold seg_ok. now rewrite E1, E2, E3, Hs.
Qed.

Lemma fold_norm_clean : forall l acc,
  Forall (fun x => has_char slash x = false) l ->
  Forall (fun x => seg_ok x = true) acc ->
  Forall (fun x => seg_ok x = true) (fold_left (norm_step false) l acc).
Proof.
  induction l as [|s l IH]; intros acc Hl Hacc; simpl; [exact Hacc|].
  inversion Hl; subst. apply IH; [assumption|]. now apply norm_step_clean.
Qed.

Lemma split_no_slash_segs : forall s,
  Forall (fun x => has_char slash x = false) (split_slash s).
Proof.
  induction s as [|c s IH]; cbn [split_slash]; [now repeat constructor|].
  destruct (Ascii.eqb c slash) eqn:Ec; [now constructor|].
  destruct (split_slash s) as [|seg segs]; [now repeat constructor; cbn [has_char]; rewrite Ascii.eqb_sym, Ec|].
  inversion IH; subst. constructor; [cbn [has_char]; now rewrite Ascii.eqb_sym, Ec | assumption].
Qed.

Lemma norm_segs_false_clean : forall s,
  Forall (fun x => seg_ok x = true) (norm_segs false (split_slash s)).
Proof.
  intro s. unfold norm_segs. apply Forall_rev.
  apply fold_norm_clean; [apply split_no_slash_segs | constructor].
Qed.

(** A character other than ['/'] and ['.'] never appears in the output of
    [normalizeString] unless it was in the input. *)
Lemma norm_step_no_char : forall c acc s,
  Ascii.eqb c "."%char = false ->
  Forall (fun x => has_char c x = false) acc -> has_char c s = false ->
  Forall (fun x => has_char c x = false) (norm_step false acc s).
Proof.
  intros c acc s Hdot Hacc Hs. unfold norm_step.
  destruct (String.eqb s "" || String.eqb s "."); [exact Hacc|].
  destruct (String.eqb s "..").
  - destruct acc as [|top acc']; [constructor|].
    destruct (String.eqb top ".."); [exact Hacc|]. now inversion Hacc.
  - now constructor.
Qed.

Lemma has_char_normalizeString : forall c s,
  Ascii.eqb c slash = false -> Ascii.eqb c "."%char = false ->
  has_char c s = false -> has_char c (normalizeString s false) = false.
Proof.
  intros c s Hc Hdot Hs. unfold normalizeString, norm_segs.
  apply has_char_join; [exact Hc|]. apply Forall_rev.
  assert (Hsplit := has_char_split c s Hc Hs).
  generalize (@nil string) (Forall_nil (fun x => has_char c x = false)).
  induction (split_slash s) as [|seg segs IH]; intros acc Hacc; simpl; [exact Hacc|].
  inversion Hsplit; subst. apply IH; [assumption|].
  now apply norm_step_no_char.
Qed.

(** ** Common segment prefix *)

Lemma common_prefix_le : forall xs ys, (common_prefix_len xs ys <= length xs)%nat.
Proof.
  induction xs as [|x xs IH]; intros [|y ys]; simpl; try lia.
  destruct (String.eqb x y); [specialize (IH ys); lia | lia].
Qed.

Lemma common_prefix_firstn : forall xs ys,
  firstn (common_prefix_len xs ys) xs = firstn (common_prefix_len xs ys) ys.
Proof.
  induction xs as [|x xs IH]; intros [|y ys]; simpl; try reflexivity.
  destruct (String.eqb x y) eqn:E; [|reflexivity].
  apply String.eqb_eq in E; subst. simpl. now rewrite IH.
Qed.

Lemma common_prefix_app : forall xs ys, common_prefix_len xs (app xs ys) = length xs.
Proof.
  induction xs as [|x xs IH]; intros ys; simpl; [now destruct ys|].
  now rewrite String.eqb_refl, IH.
Qed.

Lemma filter_nonempty_id : forall l, Forall (fun s => seg_ok s = true) l ->
  filter (fun s => negb (String.eqb s "")) l = l.
Proof.
  induction l as [|x l IH]; intro H; [reflexivity|].
  inversion H; subst. simpl.
  destruct (String.eqb x "") eqn:E.
  - apply String.eqb_eq in E; subst; discriminate.
  - simpl. now rewrite IH.
Qed.

Lemma abs_path_app_slash : forall bs t,
  abs_path bs ++ "/" ++ t = String slash (join_slash bs ++ String slash t).
Proof. reflexivity. Qed.

Lemma segs_of_abs_path : forall segs, Forall (fun s => seg_ok s = true) segs ->
  segs_of (abs_path segs) = segs.
Proof.
  intros segs H. unfold segs_of.
  change (abs_path segs) with (String slash (join_slash segs)).
  rewrite split_slash_slash. destruct segs as [|x l]; [reflexivity|].
  rewrite split_join.
  - exact (filter_nonempty_id (x :: l) H).
  - discriminate.
  - eapply Forall_impl; [|exact H]. exact seg_ok_no_slash.
Qed.

Lemma fold_abs_tail : forall bs t, Forall (fun s => seg_ok s = true) bs ->
  fold_left (norm_step false) (split_slash (abs_path bs ++ "/" ++ t)) []
  = fold_left (norm_step false) (split_slash t) (rev bs).
Proof.
  intros bs t H.
  rewrite abs_path_app_slash, split_slash_slash, split_slash_app.
  cbn [fold_left]. change (norm_step false [] "") with (@nil string).
  rewrite fold_left_app, fold_norm_join by exact H. now rewrite app_nil_r.
Qed.

Lemma resolve_loop_abs_path : forall segs l rp,
  resolve_loop (abs_path segs :: l) rp = (abs_path segs ++ "/" ++ rp, true).
Proof. reflexivity. Qed.

Lemma resolve_loop_absolute : forall l rp,
  existsb is_absolute l = true -> snd (resolve_loop l rp) = true.
Proof.
  induction l as [|p l IH]; intros rp H; [discriminate|].
  cbn [resolve_loop]. simpl in H.
  destruct (String.eqb p "") eqn:E.
  - apply String.eqb_eq in E; subst. simpl in H. now apply IH.
  - destruct (is_absolute p); [reflexivity|]. now apply IH.
Qed.

Lemma first_seg_not_absolute : forall x r, seg_ok x = true ->
  is_absolute (join_slash (x :: r)) = false /\ join_slash (x :: r) <> "".
Proof.
  intros x r H. split; [|apply join_cons_nonempty, seg_ok_nonempty, H].
  assert (Hs := seg_ok_no_slash x H).
  destruct x as [|c x']; [discriminate|].
  cbn [has_char] in Hs. apply orb_false_iff in Hs as [Hc _].
  destruct r as [|y r]; simpl; now rewrite Ascii.eqb_sym.
Qed.

Lemma resolve_loop_rel : forall j l rp, j <> "" -> is_absolute j = false ->
  resolve_loop (j :: l) rp = resolve_loop l (j ++ "/" ++ rp).
Proof.
  intros j l rp Hne Ha. simpl. now rewrite (proj2 (String.eqb_neq _ _) Hne), Ha.
Qed.

Lemma prefix_dotdot_repeat : forall k l, k <> 0%nat ->
  String.prefix ".." (join_slash (app (repeat ".." k) l)) = true.
Proof.
  intros [|k] l Hk; [congruence|]. cbn [repeat app].
  destruct (app (repeat ".." k) l) as [|y r]; [reflexivity|].
  change (join_slash (".." :: y :: r)) with (".." ++ "/" ++ join_slash (y :: r)).
  apply prefix_app.
Qed.

Lemma abs_path_not_root : forall bs, bs <> [] -> Forall (fun s => seg_ok s = true) bs ->
  String.eqb (abs_path bs) "/" = false.
Proof.
  intros [|x l] Hne H; [congruence|]. inversion H; subst. unfold abs_path.
  destruct (join_slash (x :: l)) eqn:E.
  - exfalso. exact (join_cons_nonempty x l (seg_ok_nonempty x H2) E).
  - reflexivity.
Qed.

Lemma contained_abs : forall bs rest, Forall (fun s => seg_ok s = true) bs ->
  contained_in (abs_path bs) (abs_path (app bs rest)) = true.
Proof.
  intros bs rest H. unfold contained_in.
  destruct rest as [|y r]; [now rewrite app_nil_r, String.eqb_refl|].
  apply orb_true_iff; right.
  destruct bs as [|x l].
  - change (String.prefix "/" ("/" ++ join_slash (y :: r)) = true). apply prefix_app.
  - rewrite abs_path_not_root by (discriminate || exact H).
    unfold abs_path. rewrite join_app by discriminate.
    set (J := join_slash (x :: l)). set (K := join_slash (y :: r)).
    rewrite (str_app_assoc "/" J "/"), <- (str_app_assoc J "/" K),
      <- (str_app_assoc "/" (J ++ "/") K).
    apply prefix_app.
Qed.

Lemma last_char_cons : forall c s, s <> "" -> last_char (String c s) = last_char s.
Proof. intros c [|a s] H; [congruence | reflexivity]. Qed.

Lemma last_char_app : forall s t, t <> "" -> last_char (s ++ t) = last_char t.
Proof.
  induction s as [|a s IH]; intros t H; [reflexivity|].
  cbn [append]. rewrite last_char_cons; [now apply IH|].
  destruct s; [exact H | discriminate].
Qed.

Lemma last_char_has : forall c s, last_char s = Some c -> has_char c s = true.
Proof.
  intros c. induction s as [|a s IH]; intro H; [discriminate|].
  cbn [has_char]. destruct s as [|b s].
  - injection H as ->. now rewrite Ascii.eqb_refl.
  - rewrite IH by exact H. apply orb_true_r.
Qed.

Lemma last_char_join : forall x r, Forall (fun s => seg_ok s = true) (x :: r) ->
  match last_char (join_slash (x :: r)) with
  | Some c => Ascii.eqb c slash | None => false end = false.
Proof.
  intros x r. revert x. induction r as [|y r IH]; intros x H; inversion H; subst.
  - change (join_slash [x]) with x.
    destruct (last_char x) as [c|] eqn:E; [|reflexivity].
    destruct (Ascii.eqb c slash) eqn:Ec; [|reflexivity].
    apply Ascii.eqb_eq in Ec; subst c. apply last_char_has in E.
    now rewrite (seg_ok_no_slash x H2) in E.
  - change (join_slash (x :: y :: r)) with (x ++ String slash (join_slash (y :: r))).
    rewrite last_char_app by discriminate.
    rewrite last_char_cons by (inversion H3; apply join_cons_nonempty, seg_ok_nonempty;
                               assumption).
    now apply IH.
Qed.

Lemma normalize_abs_path : forall ps, Forall (fun s => seg_ok s = true) ps ->
  normalize (abs_path ps) = abs_path ps.
Proof.
  intros [|x r] H; [reflexivity|].
  assert (Hne : join_slash (x :: r) <> "")
    by (inversion H; apply join_cons_nonempty, seg_ok_nonempty; assumption).
  unfold normalize. change (abs_path (x :: r)) with (String slash (join_slash (x :: r))).
  cbv zeta. cbn [String.eqb is_absolute]. rewrite Ascii.eqb_refl.
  rewrite last_char_cons, last_char_join by assumption.
  assert (Hn : normalizeString (String slash (join_slash (x :: r))) (negb true)
               = join_slash (x :: r)).
  { unfold normalizeString, norm_segs. rewrite split_slash_slash. cbn [fold_left negb].
    change (norm_step false [] "") with (@nil string).
    rewrite fold_norm_join by exact H. now rewrite app_nil_r, rev_involutive. }
  rewrite Hn. apply String.eqb_neq in Hne. now rewrite Hne.
Qed.

Lemma prefix_dotdot_slash : forall x t,
  String.prefix ".." (x ++ String slash t) = String.prefix ".." x.
Proof.
  intros [|a x] t; [reflexivity|]. cbn [append String.prefix].
  destruct (ascii_dec "."%char a); [|reflexivity].
  destruct x as [|b x]; cbn [append String.prefix]; [reflexivity|].
  destruct (ascii_dec "."%char b); [destruct x; reflexivity | reflexivity].
Qed.

Lemma prefix_dotdot_join : forall l,
  String.prefix ".." (join_slash l) = String.prefix ".." (hd "" l).
Proof.
  intros [|x [|y r]]; try reflexivity.
  change (join_slash (x :: y :: r)) with (x ++ String slash (join_slash (y :: r))).
  apply prefix_dotdot_slash.
Qed.

Lemma skipn_length_app : forall (l1 l2 : list string), skipn (length l1) (app l1 l2) = l2.
Proof. induction l1 as [|x l1 IH]; intro l2; [reflexivity | apply IH]. Qed.

Lemma has_char_resolve_loop : forall c l rp, Ascii.eqb c slash = false ->
  has_char c rp = false -> Forall (fun a => has_char c a = false) l ->
  has_char c (fst (resolve_loop l rp)) = false.
Proof.
  intros c l. induction l as [|a l IH]; intros rp Hc Hrp Hl; [exact Hrp|].
  inversion Hl; subst. cbn [resolve_loop].
  destruct (String.eqb a ""); [now apply IH|].
  assert (Ha : has_char c (a ++ "/" ++ rp) = false).
  { rewrite !has_char_app, H1, Hrp.
    change (has_char c "/") with (Ascii.eqb c slash || false). now rewrite Hc. }
  destruct (is_absolute a); [exact Ha | now apply IH].
Qed.

Section Paths.

Variable cwd : string.
Hypothesis cwd_abs : is_absolute cwd = true.

(** Every [resolve] is a clean absolute path. *)
Lemma resolve_shape : forall args, exists segs,
  Forall (fun s => seg_ok s = true) segs /\ resolve cwd args = abs_path segs.
Proof.
  intro args. unfold resolve.
  destruct (resolve_loop (app (rev args) [cwd]) "") as [rp ab] eqn:E.
  assert (Hab : ab = true).
  { change ab with (snd (rp, ab)). rewrite <- E. apply resolve_loop_absolute.
    rewrite existsb_app. simpl. rewrite cwd_abs. now rewrite orb_true_r. }
  subst ab. exists (norm_segs false (split_slash rp)).
  split; [apply norm_segs_false_clean | reflexivity].
Qed.

Lemma resolve_abs_last : forall l segs, Forall (fun s => seg_ok s = true) segs ->
  resolve cwd (app l [abs_path segs]) = abs_path segs.
Proof.
  intros l segs H. unfold resolve.
  rewrite rev_app_distr. change (rev [abs_path segs]) with [abs_path segs].
  cbn [app]. rewrite resolve_loop_abs_path. cbv beta iota zeta.
  unfold normalizeString, norm_segs. simpl negb.
  rewrite fold_abs_tail by exact H. unfold norm_step; simpl. now rewrite rev_involutive.
Qed.

Lemma resolve_abs_join : forall bs rest,
  Forall (fun s => seg_ok s = true) bs -> Forall (fun s => seg_ok s = true) rest ->
  resolve cwd [abs_path bs; join_slash rest] = abs_path (app bs rest).
Proof.
  intros bs rest Hb Hr. destruct rest as [|x r].
  - rewrite app_nil_r. exact (resolve_abs_last [] bs Hb).
  - unfold resolve. change (app (rev [abs_path bs; join_slash (x :: r)]) [cwd])
      with [join_slash (x :: r); abs_path bs; cwd].
    inversion Hr; subst.
    destruct (first_seg_not_absolute x r H1) as [Hna Hne].
    rewrite (resolve_loop_rel _ _ _ Hne Hna), resolve_loop_abs_path. cbv beta iota zeta.
    unfold normalizeString, norm_segs. simpl negb.
    rewrite fold_abs_tail by exact Hb.
    change (join_slash (x :: r) ++ "/" ++ "") with (join_slash (x :: r) ++ String slash "").
    rewrite split_slash_app, fold_left_app, fold_norm_join by exact Hr.
    unfold norm_step; simpl. rewrite rev_app_distr, !rev_involutive, rev_app_distr, rev_involutive. reflexivity.
Qed.

Lemma relative_abs : forall bs ps,
  Forall (fun s => seg_ok s = true) bs -> Forall (fun s => seg_ok s = true) ps ->
  relative cwd (abs_path bs) (abs_path ps) =
  if String.eqb (abs_path bs) (abs_path ps) then "" else
  join_slash (app (repeat ".." (length bs - common_prefix_len bs ps))
                  (skipn (common_prefix_len bs ps) ps)).
Proof.
  intros bs ps Hb Hp. unfold relative.
  destruct (String.eqb (abs_path bs) (abs_path ps)) eqn:E; [reflexivity|].
  pose proof (resolve_abs_last [] bs Hb) as Eb. pose proof (resolve_abs_last [] ps Hp) as Ep.
  cbn [app] in Eb, Ep. rewrite Eb, Ep, E.
  now rewrite !segs_of_abs_path.
Qed.

Lemma validatePath_ok_inv : forall fp base p, validatePath cwd fp base = Ok p ->
  exists s, fp = JStr s /\ s <> "" /\ p = resolve cwd [base; normalize s] /\
  String.prefix ".." (relative cwd (resolve cwd [base]) p) = false /\
  resolve cwd [resolve cwd [base]; relative cwd (resolve cwd [base]) p] = p /\
  has_nul (normalize s) = false.
Proof.
  intros fp base p H. destruct fp as [| | | |s| |]; try discriminate H.
  unfold validatePath in H. cbn [js_falsy] in H.
  destruct (String.eqb s "") eqn:Es; [discriminate H|].
  apply String.eqb_neq in Es. cbv zeta in H.
  destruct (String.prefix ".." (relative cwd (resolve cwd [base])
              (resolve cwd [base; normalize s]))) eqn:E1; [discriminate H|].
  destruct (String.eqb (resolve cwd [resolve cwd [base];
              relative cwd (resolve cwd [base]) (resolve cwd [base; normalize s])])
              (resolve cwd [base; normalize s])) eqn:E2; [|discriminate H].
  destruct (has_nul (normalize s)) eqn:E3; [discriminate H|].
  injection H as <-. apply String.eqb_eq in E2.
  exists s. repeat split; assumption.
Qed.

(** Containment from the relative-path test alone. *)
Lemma relative_not_up_contained : forall base p,
  String.prefix ".." (relative cwd base p) = false ->
  base = resolve cwd [base] -> p = resolve cwd [p] ->
  contained_in base p = true.
Proof.
  intros base p H Hb Hp.
  destruct (resolve_shape [base]) as [bs [Hbs Eb]].
  destruct (resolve_shape [p]) as [ps [Hps Ep]].
  rewrite Eb in Hb. rewrite Ep in Hp. subst base p.
  rewrite relative_abs in H by assumption.
  destruct (String.eqb (abs_path bs) (abs_path ps)) eqn:E.
  - apply String.eqb_eq in E. rewrite E. unfold contained_in.
    now rewrite String.eqb_refl.
  - destruct (Nat.eq_dec (length bs - common_prefix_len bs ps) 0) as [Hk|Hk];
      [|now rewrite prefix_dotdot_repeat in H].
    pose proof (common_prefix_le bs ps) as Hle.
    assert (Hc : common_prefix_len bs ps = length bs) by lia.
    pose proof (common_prefix_firstn bs ps) as Hf. rewrite Hc, firstn_all in Hf.
    rewrite <- (firstn_skipn (length bs) ps), <- Hf.
    now apply contained_abs.
Qed.

Lemma resolve_idem : forall args, resolve cwd [resolve cwd args] = resolve cwd args.
Proof.
  intro args. destruct (resolve_shape args) as [ps [Hps E]]. rewrite E.
  exact (resolve_abs_last [] ps Hps).
Qed.

(** C1: whenever [validatePath] returns a path [p], the input was a string [s]
    and [p = resolve(base, normalize(s))]; the path from the resolved base to
    [p] does not start with [..], re-resolving it against the base gives [p]
    back, and [p] is the resolved base itself or lies below it. The input
    ["../../../etc/passwd"] under ["/home/user/project"] is refused with a
    path-traversal error. *)
Theorem validatePath_contained :
  (forall fp base p, validatePath cwd fp base = Ok p ->
    (exists s, fp = JStr s /\ p = resolve cwd [base; normalize s]) /\
    String.prefix ".." (relative cwd (resolve cwd [base]) p) = false /\
    resolve cwd [resolve cwd [base]; relative cwd (resolve cwd [base]) p] = p /\
    contained_in (resolve cwd [base]) p = true) /\
  result_kind (validatePath cwd (JStr "../../../etc/passwd") "/home/user/project")
    = Some PathTraversal.
Proof.
  split; [|vm_compute; reflexivity].
  intros fp base p H.
  destruct (validatePath_ok_inv fp base p H) as [s [-> [_ [Hp [Hrel [Hre _]]]]]].
  split; [now exists s|]. split; [exact Hrel|]. split; [exact Hre|].
  apply relative_not_up_contained; [exact Hrel | symmetry; apply resolve_idem |].
  rewrite Hp. symmetry. apply resolve_idem.
Qed.


Lemma resolve_loop_cwd : forall args,
  snd (resolve_loop (app (rev args) [cwd]) "") = true.
Proof.
  intro args. apply resolve_loop_absolute.
  rewrite existsb_app. simpl. rewrite cwd_abs. apply orb_true_r.
Qed.

Lemma has_nul_resolve : forall args, has_nul cwd = false ->
  Forall (fun a => has_nul a = false) args -> has_nul (resolve cwd args) = false.
Proof.
  intros args Hc Ha. pose proof (resolve_loop_cwd args) as Hab.
  assert (Hrp : has_char nul (fst (resolve_loop (app (rev args) [cwd]) "")) = false).
  { apply has_char_resolve_loop; [reflexivity | reflexivity |].
    apply Forall_app; split; [now apply Forall_rev | now repeat constructor]. }
  unfold resolve. destruct (resolve_loop (app (rev args) [cwd]) "") as [rp ab].
  simpl in Hab, Hrp. subst ab. cbv beta iota zeta.
  unfold has_nul. rewrite has_char_app.
  apply has_char_normalizeString with (c := nul) in Hrp; [|reflexivity|reflexivity].
  simpl negb. now rewrite Hrp.
Qed.

(** When the resolved input lies below the resolved base and its first segment
    there does not start with [..], both traversal tests pass. *)
Lemma below_base_checks : forall base n rest,
  segs_of (resolve cwd [base; n]) = app (segs_of (resolve cwd [base])) rest ->
  String.prefix ".." (hd "" rest) = false ->
  String.prefix ".." (relative cwd (resolve cwd [base]) (resolve cwd [base; n])) = false /\
  resolve cwd [resolve cwd [base];
               relative cwd (resolve cwd [base]) (resolve cwd [base; n])]
    = resolve cwd [base; n] /\
  contained_in (resolve cwd [base]) (resolve cwd [base; n]) = true.
Proof.
  intros base n rest Hs Hd.
  destruct (resolve_shape [base]) as [bs [Hbs Eb]].
  destruct (resolve_shape [base; n]) as [ps [Hps Ep]].
  rewrite Eb, Ep in *. rewrite !segs_of_abs_path in Hs by assumption. subst ps.
  apply Forall_app in Hps as [_ Hrest].
  split; [|split; [|now apply contained_abs]];
    rewrite relative_abs by (try apply Forall_app; auto);
    destruct (String.eqb (abs_path bs) (abs_path (app bs rest))) eqn:E;
    try rewrite common_prefix_app, Nat.sub_diag, skipn_length_app; cbn [repeat app].
  - reflexivity.
  - now rewrite prefix_dotdot_join.
  - apply String.eqb_eq in E. rewrite <- E.
    pose proof (resolve_abs_join bs [] Hbs (Forall_nil _)) as X.
    rewrite app_nil_r in X. exact X.
  - now apply resolve_abs_join.
Qed.

(** A non-empty input whose normalized form holds no NUL byte,
    and which resolves below the resolved base with a first segment there
    that does not start with [..], is accepted: [validatePath] returns
    [resolve(base, normalize(s))], which is the resolved base or lies below
    it. The input [feature-flags/dark-mode.json] under [/home/user/project]
    gives [/home/user/project/feature-flags/dark-mode.json]. *)
Theorem validatePath_accepts_below :
  (forall s base rest, s <> "" -> has_nul (normalize s) = false ->
     segs_of (resolve cwd [base; normalize s]) = app (segs_of (resolve cwd [base])) rest ->
     String.prefix ".." (hd "" rest) = false ->
     validatePath cwd (JStr s) base = Ok (resolve cwd [base; normalize s]) /\
     contained_in (resolve cwd [base]) (resolve cwd [base; normalize s]) = true) /\
  validatePath cwd (JStr "feature-flags/dark-mode.json") "/home/user/project"
    = Ok "/home/user/project/feature-flags/dark-mode.json".
Proof.
  split; [|vm_compute; reflexivity].
  intros s base rest Hne Hnul Hs Hd.
  destruct (below_base_checks base (normalize s) rest Hs Hd) as [H1 [H2 H3]].
  split; [|exact H3].
  unfold validatePath. cbn [js_falsy].
  rewrite (proj2 (String.eqb_neq s "") Hne). cbv zeta.
  rewrite H1, H2, String.eqb_refl. simpl orb. now rewrite Hnul.
Qed.

(** C3 (amended): when neither the working directory nor the base holds a
    NUL byte, a path returned by [validatePath] for the base is accepted again
    for the same base and returned unchanged. *)
Theorem validatePath_idempotent : forall s base p,
  has_nul cwd = false -> has_nul base = false ->
  validatePath cwd (JStr s) base = Ok p -> validatePath cwd (JStr p) base = Ok p.
Proof.
  intros s base p Hc Hb H.
  destruct (validatePath_ok_inv _ _ _ H) as [s' [Es [_ [Hp [Hrel [Hre Hnul]]]]]].
  injection Es as <-.
  destruct (resolve_shape [base; normalize s]) as [ps [Hps Ep]].
  assert (Hn : normalize p = p) by (rewrite Hp, Ep; now apply normalize_abs_path).
  assert (Hr : resolve cwd [base; p] = p)
    by (rewrite Hp, Ep; exact (resolve_abs_last [base] ps Hps)).
  assert (Hz : has_nul p = false)
    by (rewrite Hp; apply has_nul_resolve; [exact Hc | now repeat constructor]).
  assert (Hne : String.eqb p "" = false) by (rewrite Hp, Ep; reflexivity).
  unfold validatePath. cbn [js_falsy]. rewrite Hne. cbv zeta.
  rewrite Hn, Hr, Hrel, Hre, String.eqb_refl. simpl orb. now rewrite Hz.
Qed.

(** An empty or non-string input fails with the invalid-path kind; a string
    whose normalized form holds a NUL byte fails, with the invalid-path or the
    path-traversal kind; and it is the invalid-path kind when the input
    resolves below the base with a first segment there that does not start
    with [..]. *)
Theorem validatePath_rejects_invalid :
  (forall fp base, match fp with JStr s => s = "" | _ => True end ->
     result_kind (validatePath cwd fp base) = Some InvalidPath) /\
  (forall s base, has_nul (normalize s) = true ->
     result_kind (validatePath cwd (JStr s) base) = Some InvalidPath \/
     result_kind (validatePath cwd (JStr s) base) = Some PathTraversal) /\
  (forall s base rest, has_nul (normalize s) = true ->
     segs_of (resolve cwd [base; normalize s]) = app (segs_of (resolve cwd [base])) rest ->
     String.prefix ".." (hd "" rest) = false ->
     result_kind (validatePath cwd (JStr s) base) = Some InvalidPath).
Proof.
  split; [|split].
  - intros [| | | |s| |] base H; try reflexivity. subst s. reflexivity.
  - intros s base H. unfold validatePath. cbn [js_falsy].
    destruct (String.eqb s ""); [now left|]. cbv zeta.
    destruct (_ || _); [now right|]. rewrite H. now left.
  - intros s base rest H Hs Hd.
    destruct (below_base_checks base (normalize s) rest Hs Hd) as [H1 [H2 _]].
    unfold validatePath. cbn [js_falsy].
    destruct (String.eqb s ""); [reflexivity|]. cbv zeta.
    rewrite H1, H2, String.eqb_refl. simpl orb. now rewrite H.
Qed.

(** X1: a directory path [validateDirectoryPath] accepts comes back in
    canonical absolute form: a ['/'] followed by segments that are neither
    empty, [.] nor [..] and hold no ['/']; normalizing it or resolving it
    again leaves it unchanged. *)
Theorem validateDirectoryPath_canonical : forall d base p,
  validateDirectoryPath cwd d base = Ok p ->
  (exists segs, Forall (fun s => seg_ok s = true) segs /\ p = abs_path segs) /\
  normalize p = p /\ resolve cwd [p] = p.
Proof.
  intros d base p H. unfold validateDirectoryPath in H.
  destruct (validatePath_ok_inv d base p H) as [s [_ [_ [Hp _]]]].
  destruct (resolve_shape [base; normalize s]) as [segs [Hf E]].
  rewrite Hp, E. split; [now exists segs|]. split; [now apply normalize_abs_path|].
  rewrite <- E. apply resolve_idem.
Qed.

End Paths.

(** ** Path claims: instances and counterexamples *)

Lemma validatePath_contained_witness :
  is_absolute "/" = true /\
  contained_in "/home/user/project" "/home/user/project/feature-flags/dark-mode.json" = true /\
  result_kind (validatePath "/" (JStr "../../../etc/passwd") "/home/user/project")
    = Some PathTraversal.
Proof.
  split; [reflexivity|].
  destruct (validatePath_contained "/" eq_refl) as [H1 H2]. split; [|exact H2].
  exact (proj2 (proj2 (proj2 (H1 (JStr "feature-flags/dark-mode.json")
    "/home/user/project" "/home/user/project/feature-flags/dark-mode.json"
    (eq_refl _))))).
Defined.

Lemma validatePath_accepts_below_witness :
  is_absolute "/" = true /\
  validatePath "/" (JStr "a/./b") "/home" = Ok "/home/a/b".
Proof.
  split; [reflexivity|].
  exact (proj1 ((proj1 (validatePath_accepts_below "/" eq_refl)) "a/./b" "/home"
    ["a"; "b"] ltac:(discriminate) (eq_refl _) (eq_refl _) (eq_refl _))).
Defined.

(** C2 (code bug): a file or directory name that merely starts with [..],
    such as [..foo] or [..hidden/dark-mode.json], holds no traversal
    sequence and resolves inside the base ([/home/user/project/..foo] is
    contained in [/home/user/project]), yet [validatePath] refuses it with
    the path-traversal kind, because it tests
    [relativePath.startsWith('..')] and the relative path [..foo] starts
    with those two characters. *)
Theorem validatePath_dotdot_name_refused :
  has_traversal_seq "..foo" = false /\
  resolve "/" ["/home/user/project"; normalize "..foo"] = "/home/user/project/..foo" /\
  contained_in (resolve "/" ["/home/user/project"]) "/home/user/project/..foo" = true /\
  result_kind (validatePath "/" (JStr "..foo") "/home/user/project")
    = Some PathTraversal /\
  has_traversal_seq "..hidden/dark-mode.json" = false /\
  resolve "/" ["/home/user/project"; normalize "..hidden/dark-mode.json"]
    = "/home/user/project/..hidden/dark-mode.json" /\
  contained_in (resolve "/" ["/home/user/project"])
    "/home/user/project/..hidden/dark-mode.json" = true /\
  result_kind (validatePath "/" (JStr "..hidden/dark-mode.json") "/home/user/project")
    = Some PathTraversal.
Proof. vm_compute. repeat split. Qed.

Lemma validatePath_idempotent_witness :
  is_absolute "/" = true /\ has_nul "/" = false /\ has_nul "/home/user/project" = false /\
  validatePath "/" (JStr "feature-flags/../x.json") "/home/user/project"
    = Ok "/home/user/project/x.json" /\
  validatePath "/" (JStr "/home/user/project/x.json") "/home/user/project"
    = Ok "/home/user/project/x.json".
Proof.
  assert (H : validatePath "/" (JStr "feature-flags/../x.json") "/home/user/project"
              = Ok "/home/user/project/x.json") by (vm_compute; reflexivity).
  split; [reflexivity|]. split; [reflexivity|]. split; [reflexivity|].
  split; [exact H|].
  exact (validatePath_idempotent "/" eq_refl "feature-flags/../x.json" "/home/user/project"
           _ eq_refl eq_refl H).
Defined.

(** A base holding a NUL byte: the first call succeeds, the second refuses. *)
Lemma validatePath_not_idempotent :
  validatePath "/" (JStr "x") ("/a" ++ String nul "b") = Ok ("/a" ++ String nul "b/x") /\
  result_kind (validatePath "/" (JStr ("/a" ++ String nul "b/x")) ("/a" ++ String nul "b"))
    = Some InvalidPath.
Proof. vm_compute. split; reflexivity. Qed.

Lemma validatePath_rejects_invalid_witness :
  is_absolute "/" = true /\
  result_kind (validatePath "/" (JStr "") "/home") = Some InvalidPath /\
  result_kind (validatePath "/" (JStr ("x" ++ String nul "")) "/home") = Some InvalidPath.
Proof.
  destruct (validatePath_rejects_invalid "/" eq_refl) as [H1 [_ H3]].
  split; [reflexivity|]. split; [exact (H1 (JStr "") "/home" eq_refl)|].
  exact (H3 ("x" ++ String nul "") "/home" ["x" ++ String nul ""]
           (eq_refl _) (eq_refl _) (eq_refl _)).
Defined.

(** C4 (code bug): the NUL-byte check runs on the normalized path, so a NUL
    byte in a segment that a later [..] removes goes unnoticed: [a\0/..] is
    accepted and [validatePath] returns the base itself. And the traversal
    check runs first, so [../\0] fails with the path-traversal kind rather
    than the invalid-path kind. *)
Lemma validatePath_nul_not_invalid :
  has_nul ("../" ++ String nul "") = true /\
  result_kind (validatePath "/" (JStr ("../" ++ String nul "")) "/home/user/project")
    = Some PathTraversal /\
  has_nul ("a" ++ String nul "/..") = true /\
  validatePath "/" (JStr ("a" ++ String nul "/..")) "/home/user/project"
    = Ok "/home/user/project".
Proof. vm_compute. repeat split. Qed.

(** ** validateFileSize *)

(** C5: a missing file fails with the file-not-found kind; an existing file
    of [n] bytes passes exactly when [n <= maxBytes]; a file of [maxBytes + 1]
    bytes fails with the file-too-large kind whose context carries the path,
    the size and [maxBytes]; leaving [maxSizeBytes] out is the same as passing
    [1048576]. *)
Theorem validateFileSize_spec : forall fs filePath (maxBytes : N),
  (fs filePath = FileMissing ->
     forall m, result_kind (validateFileSize fs filePath m) = Some FileNotFound) /\
  (forall n, fs filePath = FileSize n ->
     validateFileSize fs filePath (Some maxBytes) = Ok tt <-> (n <= maxBytes)%N) /\
  (fs filePath = FileSize (maxBytes + 1) ->
     exists e, validateFileSize fs filePath (Some maxBytes) = Throw e /\
       kind_of e = FileTooLarge /\
       ve_context e = Some [("filePath", JStr filePath);
                            ("fileSize", JNum (inject_Z (Z.of_N (maxBytes + 1))));
                            ("maxSize", JNum (inject_Z (Z.of_N maxBytes)))]) /\
  (forall fs' p, validateFileSize fs' p None = validateFileSize fs' p (Some 1048576%N)).
Proof.
  intros fs filePath maxBytes. split; [|split; [|split]].
  - intros H m. unfold validateFileSize. now rewrite H.
  - intros n H. unfold validateFileSize. rewrite H.
    destruct (maxBytes <? n)%N eqn:E; split; intro Hx; try discriminate.
    + apply N.ltb_lt in E. lia.
    + apply N.ltb_ge in E. exact E.
    + reflexivity.
  - intro H. unfold validateFileSize. rewrite H.
    assert (E : (maxBytes <? maxBytes + 1)%N = true) by (apply N.ltb_lt; lia).
    rewrite E. eexists. split; [reflexivity|]. split; reflexivity.
  - reflexivity.
Qed.

(** ** validateSchema and validateFlagSchema *)

Lemma validateFlagSchema_errors : forall d fn,
  errors_of (validateFlagSchema d fn) = validateSchema d FLAG_SCHEMA.
Proof.
  intros d fn. unfold validateFlagSchema.
  destruct (validateSchema d FLAG_SCHEMA); reflexivity.
Qed.

Lemma validateFlagSchema_ok : forall d fn,
  validateSchema d FLAG_SCHEMA = [] -> validateFlagSchema d fn = Ok d.
Proof. intros d fn H. unfold validateFlagSchema. now rewrite H. Qed.

Lemma validateFlagSchema_throw : forall d fn, validateSchema d FLAG_SCHEMA <> [] ->
  exists e, validateFlagSchema d fn = Throw e /\
    ve_validationErrors e = validateSchema d FLAG_SCHEMA /\ kind_of e = SchemaViolation.
Proof.
  intros d fn H. unfold validateFlagSchema.
  destruct (validateSchema d FLAG_SCHEMA) as [|x l]; [congruence|].
  eexists. split; [reflexivity|]. split; [reflexivity|].
  destruct fn as [f|]; [destruct (String.eqb f "")|]; reflexivity.
Qed.

Lemma validateSchema_obj : forall fs,
  validateSchema (JObj fs) FLAG_SCHEMA =
  app (required_errors (JObj fs) ["key"; "name"; "active"])
      (flat_map (entry_errors flag_properties false) fs).
Proof. reflexivity. Qed.

Lemma assoc_none_existsb : forall (l : list (string * jsval)) k,
  assoc l k = None -> existsb (fun kv => String.eqb (fst kv) k) l = false.
Proof.
  induction l as [|[k' v] l IH]; intros k H; [reflexivity|].
  simpl in H |- *. rewrite String.eqb_sym.
  destruct (String.eqb k k'); [discriminate | now apply IH].
Qed.

Lemma missing_cond : forall fs f, is_object_proto_member f = false ->
  field_absent fs f = true ->
  negb (js_in (JObj fs) f) || is_undefined_or_null (js_get (JObj fs) f) = true.
Proof.
  intros fs f Hp H. unfold field_absent in H. unfold js_in, js_get.
  destruct (assoc fs f) as [v|] eqn:E.
  - destruct v; try discriminate; apply orb_true_r.
  - now rewrite assoc_none_existsb, Hp.
Qed.

Lemma required_missing : forall fs f req, In f req -> is_object_proto_member f = false ->
  field_absent fs f = true -> In (missing_msg f) (required_errors (JObj fs) req).
Proof.
  intros fs f req Hin Hp H. unfold required_errors. apply in_flat_map.
  exists f. split; [exact Hin|]. rewrite missing_cond by assumption. now left.
Qed.

Lemma errors_entry_in : forall fs k v fn, In (k, v) fs ->
  incl (entry_errors flag_properties false (k, v))
       (errors_of (validateFlagSchema (JObj fs) fn)).
Proof.
  intros fs k v fn Hin x Hx.
  rewrite validateFlagSchema_errors, validateSchema_obj.
  apply in_or_app. right. apply in_flat_map. now exists (k, v).
Qed.

(** C6: the error [validateFlagSchema] throws on an object carries the whole
    list [validateSchema] collects: the errors of every declared property,
    one [Unknown property] error for every undeclared one, and one
    [Missing required field] error for every missing required field; with
    [key], [name] and [active] all missing, the list starts with the three
    missing-field errors. *)
Theorem validateFlagSchema_all_violations : forall fields fn,
  (validateSchema (JObj fields) FLAG_SCHEMA <> [] ->
     exists e, validateFlagSchema (JObj fields) fn = Throw e /\
       ve_validationErrors e = validateSchema (JObj fields) FLAG_SCHEMA /\
       kind_of e = SchemaViolation) /\
  (forall k v sch, In (k, v) fields -> prop_lookup flag_properties k = Some sch ->
     incl (validateProperty v sch k) (errors_of (validateFlagSchema (JObj fields) fn))) /\
  (forall k v, In (k, v) fields -> prop_lookup flag_properties k = None ->
     In ("Unknown property: " ++ k) (errors_of (validateFlagSchema (JObj fields) fn))) /\
  (forall f, In f ["key"; "name"; "active"] -> field_absent fields f = true ->
     In (missing_msg f) (errors_of (validateFlagSchema (JObj fields) fn))) /\
  (field_absent fields "key" = true -> field_absent fields "name" = true ->
   field_absent fields "active" = true ->
   exists rest, errors_of (validateFlagSchema (JObj fields) fn) =
     app [missing_msg "key"; missing_msg "name"; missing_msg "active"] rest).
Proof.
  intros fields fn. split; [|split; [|split; [|split]]].
  - apply validateFlagSchema_throw.
  - intros k v sch Hin Hl. pose proof (errors_entry_in fields k v fn Hin) as X.
    unfold entry_errors in X. now rewrite Hl in X.
  - intros k v Hin Hl. apply (errors_entry_in fields k v fn Hin).
    unfold entry_errors. rewrite Hl. now left.
  - intros f Hin H. rewrite validateFlagSchema_errors, validateSchema_obj.
    apply in_or_app. left. apply required_missing; [exact Hin| |exact H].
    simpl in Hin. destruct Hin as [<-|[<-|[<-|[]]]]; reflexivity.
  - intros H1 H2 H3. rewrite validateFlagSchema_errors, validateSchema_obj.
    unfold required_errors. cbn [flat_map].
    rewrite !missing_cond by (reflexivity || assumption).
    eexists. reflexivity.
Qed.

(** ** The key property *)

Lemma key_property_nil : forall k,
  validateProperty (JStr k) key_schema "key" = [] <->
  (Z.of_nat (String.length k) <? 1)%Z = false /\
  (100 <? Z.of_nat (String.length k))%Z = false /\ key_pattern_test k = true.
Proof.
  intro k. simpl. change (enum_errors (JStr k) key_schema "key") with (@nil string).
  rewrite app_nil_r.
  destruct (Z.of_nat (String.length k) <? 1)%Z, (100 <? Z.of_nat (String.length k))%Z,
    (key_pattern_test k); simpl; split; intro H;
    try discriminate; try (decompose [and] H; discriminate); auto.
Qed.

Lemma forallb_rev : forall {A : Type} (f : A -> bool) l, forallb f (rev l) = forallb f l.
Proof.
  intros A f l. induction l as [|x l IH]; [reflexivity|]. simpl.
  rewrite forallb_app, IH. simpl. now rewrite andb_true_r, andb_comm.
Qed.

Lemma key_regex_pattern : forall k, spec_key_regex k = true -> key_pattern_test k = true.
Proof.
  intros k H. unfold spec_key_regex, key_pattern_test in *.
  destruct (list_ascii_of_string k) as [|c rest]; [discriminate|].
  destruct rest as [|r0 rest']; [now rewrite andb_true_r in H|].
  change (match rev (r0 :: rest') with
          | last :: mid_rev => is_lower_alnum c && forallb is_lower_alnum_or_hyphen mid_rev
                               && is_lower_alnum last
          | [] => false end = true).
  rewrite (app_removelast_last "a"%char (l := r0 :: rest') ltac:(discriminate)) at 1.
  rewrite rev_unit. cbv beta iota. rewrite forallb_rev.
  cbv beta iota in H. now rewrite <- andb_assoc.
Qed.

Lemma key_pattern_facts : forall k, key_pattern_test k = true ->
  forallb is_lower_alnum_or_hyphen (list_ascii_of_string k) = true /\
  (forall c rest, list_ascii_of_string k = c :: rest -> is_lower_alnum c = true) /\
  (forall c rest, rev (list_ascii_of_string k) = c :: rest -> is_lower_alnum c = true).
Proof.
  intro k. unfold key_pattern_test.
  destruct (list_ascii_of_string k) as [|c0 rest0]; [discriminate|].
  destruct rest0 as [|r0 rest'].
  - intro H. split; [|split]; intros.
    + simpl. unfold is_lower_alnum_or_hyphen. now rewrite H.
    + injection H0 as <- _. exact H.
    + injection H0 as <- _. exact H.
  - destruct (rev (r0 :: rest')) as [|lst mid] eqn:Er; [discriminate|].
    intro H. apply andb_prop in H as [H Hl]. apply andb_prop in H as [Hc Hm].
    split; [|split]; intros.
    + change (is_lower_alnum_or_hyphen c0 && forallb is_lower_alnum_or_hyphen (r0 :: rest')
              = true).
      rewrite <- forallb_rev, Er. cbn [forallb].
      apply andb_true_intro; split; [unfold is_lower_alnum_or_hyphen; now rewrite Hc|].
      apply andb_true_intro; split; [unfold is_lower_alnum_or_hyphen; now rewrite Hl|].
      exact Hm.
    + injection H as <- _. exact Hc.
    + change (rev (r0 :: rest') ++ [c0] = c :: rest)%list in H.
      rewrite Er in H. injection H as <- _. exact Hl.
Qed.

Lemma lower_alnum_or_hyphen_classes : forall c, is_lower_alnum_or_hyphen c = true ->
  is_upper c = false /\ Ascii.eqb "_"%char c = false /\ Ascii.eqb " "%char c = false.
Proof.
  intros [[] [] [] [] [] [] [] []]; vm_compute; intro H;
    first [discriminate H | repeat split].
Qed.

Lemma existsb_forallb_false : forall (f g : ascii -> bool) l,
  (forall c, f c = true -> g c = false) -> forallb f l = true -> existsb g l = false.
Proof.
  intros f g l Hfg. induction l as [|c l IH]; intro H; [reflexivity|].
  simpl in H |- *. apply andb_prop in H as [H1 H2]. now rewrite Hfg, IH.
Qed.

Lemma lower_alnum_not_hyphen : forall c, is_lower_alnum c = true -> Ascii.eqb c "-"%char = false.
Proof.
  intros c H. destruct (Ascii.eqb c "-"%char) eqn:E; [|reflexivity].
  apply Ascii.eqb_eq in E. subst c. discriminate H.
Qed.

Lemma pattern_key_not_bad : forall k, key_pattern_test k = true ->
  (1 <= String.length k <= 100)%nat -> key_is_bad k = false.
Proof.
  intros k H Hlen. destruct (key_pattern_facts k H) as [Hall [Hhd Htl]].
  unfold key_is_bad.
  rewrite (existsb_forallb_false _ _ _ (fun c Hc => proj1 (lower_alnum_or_hyphen_classes c Hc)) Hall).
  rewrite (existsb_forallb_false _ _ _
             (fun c Hc => proj1 (proj2 (lower_alnum_or_hyphen_classes c Hc))) Hall).
  rewrite (existsb_forallb_false _ _ _
             (fun c Hc => proj2 (proj2 (lower_alnum_or_hyphen_classes c Hc))) Hall).
  destruct (list_ascii_of_string k) as [|c rest] eqn:E; [unfold key_pattern_test in H; rewrite E in H; discriminate H|].
  rewrite (lower_alnum_not_hyphen c (Hhd c rest eq_refl)).
  destruct (rev (c :: rest)) as [|c' rest'] eqn:Er.
  - apply (f_equal (@length ascii)) in Er. rewrite length_rev in Er. discriminate.
  - rewrite (lower_alnum_not_hyphen c' (Htl c' rest' eq_refl)).
    simpl. destruct (String.length k) as [|n] eqn:El; [lia|].
    simpl. apply Nat.ltb_ge. lia.
Qed.

Lemma assoc_app : forall {A : Type} (l1 l2 : list (string * A)) k,
  assoc (app l1 l2) k = match assoc l1 k with Some v => Some v | None => assoc l2 k end.
Proof.
  intros A l1 l2 k. induction l1 as [|[k' v] l1 IH]; [reflexivity|].
  simpl. destruct (String.eqb k k'); [reflexivity | exact IH].
Qed.

Lemma js_in_swap : forall pre post kk v v' f,
  js_in (JObj (app pre ((kk, v) :: post))) f = js_in (JObj (app pre ((kk, v') :: post))) f.
Proof. intros. unfold js_in. now rewrite !existsb_app. Qed.

Lemma js_get_swap : forall pre post kk s s' f,
  is_undefined_or_null (js_get (JObj (app pre ((kk, JStr s) :: post))) f)
  = is_undefined_or_null (js_get (JObj (app pre ((kk, JStr s') :: post))) f).
Proof.
  intros. unfold js_get. rewrite !assoc_app.
  destruct (assoc pre f); [reflexivity|]. simpl.
  destruct (String.eqb f kk); reflexivity.
Qed.

Lemma required_swap : forall pre post kk s s' req,
  required_errors (JObj (app pre ((kk, JStr s) :: post))) req
  = required_errors (JObj (app pre ((kk, JStr s') :: post))) req.
Proof.
  intros pre post kk s s' req. unfold required_errors.
  induction req as [|f req IH]; [reflexivity|]. cbn [flat_map].
  rewrite (js_in_swap pre post kk (JStr s) (JStr s')), (js_get_swap pre post kk s s'), IH.
  reflexivity.
Qed.

Lemma validateSchema_key_swap : forall pre post k k',
  validateProperty (JStr k) key_schema "key" = validateProperty (JStr k') key_schema "key" ->
  validateSchema (JObj (app pre (("key", JStr k) :: post))) FLAG_SCHEMA
  = validateSchema (JObj (app pre (("key", JStr k') :: post))) FLAG_SCHEMA.
Proof.
  intros pre post k k' H.
  rewrite !validateSchema_obj, (required_swap pre post "key" k k'), !flat_map_app.
  cbn [flat_map].
  change (entry_errors flag_properties false ("key", JStr k))
    with (validateProperty (JStr k) key_schema "key").
  change (entry_errors flag_properties false ("key", JStr k'))
    with (validateProperty (JStr k') key_schema "key").
  now rewrite H.
Qed.

Lemma key_entry_errors : forall fields fn k, In ("key", JStr k) fields ->
  incl (validateProperty (JStr k) key_schema "key")
       (errors_of (validateFlagSchema (JObj fields) fn)).
Proof. intros fields fn k H. exact (errors_entry_in fields "key" (JStr k) fn H). Qed.

(** C7: changing the key of a valid flag object (shown valid with the key
    [a]) to any key that matches [^[a-z0-9]([a-z0-9-]*[a-z0-9])?$] and has
    1 to 100 characters keeps it valid, and [validateFlagSchema] returns the
    object itself; a key with an uppercase letter, an underscore, a space, a
    leading or trailing hyphen, or of length 0 or over 100 makes
    [validateFlagSchema] throw. *)
Theorem validateFlagSchema_key :
  (forall pre post k fn, spec_key_regex k = true -> (1 <= String.length k <= 100)%nat ->
     validateSchema (JObj (app pre (("key", JStr "a") :: post))) FLAG_SCHEMA = [] ->
     validateFlagSchema (JObj (app pre (("key", JStr k) :: post))) fn
       = Ok (JObj (app pre (("key", JStr k) :: post)))) /\
  (forall fields fn k, In ("key", JStr k) fields -> key_is_bad k = true ->
     exists e, validateFlagSchema (JObj fields) fn = Throw e).
Proof.
  split.
  - intros pre post k fn Hk Hlen Ha. apply validateFlagSchema_ok.
    rewrite (validateSchema_key_swap pre post k "a"); [exact Ha|].
    transitivity (@nil string); [|reflexivity].
    apply key_property_nil. split; [apply Z.ltb_ge; lia|].
    split; [apply Z.ltb_ge; lia|]. now apply key_regex_pattern.
  - intros fields fn k Hin Hbad.
    destruct (validateProperty (JStr k) key_schema "key") as [|x l] eqn:E.
    + exfalso. apply key_property_nil in E as [E1 [E2 E3]].
      apply Z.ltb_ge in E1. apply Z.ltb_ge in E2.
      rewrite (pattern_key_not_bad k E3) in Hbad by lia. discriminate.
    + assert (Hx : In x (errors_of (validateFlagSchema (JObj fields) fn))).
      { apply (key_entry_errors fields fn k Hin). rewrite E. now left. }
      destruct (validateFlagSchema (JObj fields) fn) as [v|e]; [destruct Hx|].
      now exists e.
Qed.

(** ** Nested properties and violation paths *)

Lemma props_errors_in : forall ps p fs k v s x, In (k, v) fs -> prop_lookup ps k = Some s ->
  In x (validateProperty v s (p ++ "." ++ k)) -> In x (props_errors ps p fs).
Proof.
  intros ps p fs k v s x. induction fs as [|[k' v'] fs IH]; intros Hin Hl Hx; [destruct Hin|].
  change (In x (app (match prop_lookup ps k' with
                     | Some ps' => validateProperty v' ps' (p ++ "." ++ k')
                     | None => [] end) (props_errors ps p fs))).
  apply in_or_app. destruct Hin as [E|Hin].
  - injection E as -> ->. rewrite Hl. now left.
  - right. now apply IH.
Qed.

Lemma items_errors_nth : forall it p xs i j y x, nth_error xs i = Some y ->
  In x (validateProperty y it (p ++ "[" ++ string_of_nat (j + i) ++ "]")) ->
  In x (items_errors it p j xs).
Proof.
  intros it p xs. induction xs as [|z xs IH]; intros i j y x Hn Hx; [destruct i; discriminate|].
  change (In x (app (validateProperty z it (p ++ "[" ++ string_of_nat j ++ "]"))
                    (items_errors it p (S j) xs))).
  apply in_or_app. destruct i as [|i].
  - injection Hn as ->. rewrite Nat.add_0_r in Hx. now left.
  - right. apply (IH i (S j) y x Hn). replace (S j + i)%nat with (j + S i)%nat by lia. exact Hx.
Qed.

Lemma vp_prop_step : forall fs sch p ps k v s x,
  type_error (JObj fs) sch p = None -> sc_get sch "properties" = Some (SProps ps) ->
  In (k, v) fs -> prop_lookup ps k = Some s ->
  In x (validateProperty v s (p ++ "." ++ k)) -> In x (validateProperty (JObj fs) sch p).
Proof.
  intros fs sch p ps k v s x Ht Hp Hin Hl Hx. cbn [validateProperty].
  rewrite Ht, Hp. apply in_or_app; right. apply in_or_app; right.
  apply in_or_app; right. apply in_or_app; left.
  exact (props_errors_in ps p fs k v s x Hin Hl Hx).
Qed.

Lemma vp_item_step : forall xs sch p it i y x,
  type_error (JArr xs) sch p = None -> sc_get sch "items" = Some (SSchema it) ->
  nth_error xs i = Some y ->
  In x (validateProperty y it (p ++ "[" ++ string_of_nat i ++ "]")) ->
  In x (validateProperty (JArr xs) sch p).
Proof.
  intros xs sch p it i y x Ht Hi Hn Hx. cbn [validateProperty].
  rewrite Ht, Hi. apply in_or_app; right. apply in_or_app; right.
  apply in_or_app; left. exact (items_errors_nth it p xs i 0 y x Hn Hx).
Qed.

Lemma top_step : forall fields fn k v s x, In (k, v) fields ->
  prop_lookup flag_properties k = Some s -> In x (validateProperty v s k) ->
  In x (errors_of (validateFlagSchema (JObj fields) fn)).
Proof.
  intros fields fn k v s x Hin Hl Hx. apply (errors_entry_in fields k v fn Hin).
  unfold entry_errors. now rewrite Hl.
Qed.

Lemma rollout_in : forall path r, out_of_percent_range r = true ->
  In (rollout_violation path r) (validateProperty (JNum r) rollout_percentage_schema path).
Proof.
  intros path r H. unfold out_of_percent_range, rollout_violation in *. simpl.
  change (Q_of_Z 0) with 0%Q. change (Q_of_Z 100) with 100%Q.
  apply in_or_app; left.
  destruct (Qle_bool 0 r), (Qle_bool r 100); simpl in H; try discriminate H;
    simpl; auto.
Qed.

Lemma errors_of_throw : forall d fn x, In x (errors_of (validateFlagSchema d fn)) ->
  exists e, validateFlagSchema d fn = Throw e /\ In x (ve_validationErrors e).
Proof.
  intros d fn x H. destruct (validateFlagSchema d fn) as [v|e]; [destruct H|].
  now exists e.
Qed.

(** C9 (amended): a [rollout_percentage] outside [0, 100] at one of the
    places the schema declares it (in an object of [filters.groups], of
    [filters.multivariate.variants] or of [variants]) makes
    [validateFlagSchema] throw, with a violation whose path names that place,
    indices in brackets and properties joined by dots. The object
    [{key: a, name: Test, active: true, filters: {groups:
    [{rollout_percentage: 150}]}}] gets the violation
    [filters.groups[0].rollout_percentage must be no more than 100]. *)
Theorem validateFlagSchema_rollout_path :
  (forall fields fn fs gs i g r,
     In ("filters", JObj fs) fields -> In ("groups", JArr gs) fs ->
     nth_error gs i = Some (JObj g) -> In ("rollout_percentage", JNum r) g ->
     out_of_percent_range r = true ->
     exists e, validateFlagSchema (JObj fields) fn = Throw e /\
       In (rollout_violation
             ("filters.groups[" ++ string_of_nat i ++ "].rollout_percentage") r)
          (ve_validationErrors e)) /\
  (forall fields fn fs mv vs i v r,
     In ("filters", JObj fs) fields -> In ("multivariate", JObj mv) fs ->
     In ("variants", JArr vs) mv -> nth_error vs i = Some (JObj v) ->
     In ("rollout_percentage", JNum r) v -> out_of_percent_range r = true ->
     exists e, validateFlagSchema (JObj fields) fn = Throw e /\
       In (rollout_violation
             ("filters.multivariate.variants[" ++ string_of_nat i
                ++ "].rollout_percentage") r)
          (ve_validationErrors e)) /\
  (forall fields fn vs i v r,
     In ("variants", JArr vs) fields -> nth_error vs i = Some (JObj v) ->
     In ("rollout_percentage", JNum r) v -> out_of_percent_range r = true ->
     exists e, validateFlagSchema (JObj fields) fn = Throw e /\
       In (rollout_violation ("variants[" ++ string_of_nat i ++ "].rollout_percentage") r)
          (ve_validationErrors e)) /\
  (exists e, validateFlagSchema
       (JObj [("key", JStr "a"); ("name", JStr "Test"); ("active", JBool true);
              ("filters", JObj [("groups", JArr [JObj [("rollout_percentage",
                                                         JNum (inject_Z 150))]])])])
       None = Throw e /\
     In "filters.groups[0].rollout_percentage must be no more than 100"
        (ve_validationErrors e)).
Proof.
  split; [|split; [|split]].
  - intros fields fn fs gs i g r Hf Hg Hi Hr Hout. apply errors_of_throw.
    eapply top_step; [exact Hf | reflexivity |].
    eapply vp_prop_step; [reflexivity | reflexivity | exact Hg | reflexivity |].
    eapply vp_item_step; [reflexivity | reflexivity | exact Hi |].
    eapply vp_prop_step; [reflexivity | reflexivity | exact Hr | reflexivity |].
    match goal with |- In _ (validateProperty _ _ ?q) =>
      replace q with ("filters.groups[" ++ string_of_nat i ++ "].rollout_percentage")
        by (rewrite !str_app_assoc; reflexivity) end.
    now apply rollout_in.
  - intros fields fn fs mv vs i v r Hf Hm Hv Hi Hr Hout. apply errors_of_throw.
    eapply top_step; [exact Hf | reflexivity |].
    eapply vp_prop_step; [reflexivity | reflexivity | exact Hm | reflexivity |].
    eapply vp_prop_step; [reflexivity | reflexivity | exact Hv | reflexivity |].
    eapply vp_item_step; [reflexivity | reflexivity | exact Hi |].
    eapply vp_prop_step; [reflexivity | reflexivity | exact Hr | reflexivity |].
    match goal with |- In _ (validateProperty _ _ ?q) =>
      replace q with ("filters.multivariate.variants[" ++ string_of_nat i
                        ++ "].rollout_percentage")
        by (rewrite !str_app_assoc; reflexivity) end.
    now apply rollout_in.
  - intros fields fn vs i v r Hv Hi Hr Hout. apply errors_of_throw.
    eapply top_step; [exact Hv | reflexivity |].
    eapply vp_item_step; [reflexivity | reflexivity | exact Hi |].
    eapply vp_prop_step; [reflexivity | reflexivity | exact Hr | reflexivity |].
    match goal with |- In _ (validateProperty _ _ ?q) =>
      replace q with ("variants[" ++ string_of_nat i ++ "].rollout_percentage")
        by (rewrite !str_app_assoc; reflexivity) end.
    now apply rollout_in.
  - eexists. split; [reflexivity|]. vm_compute. auto.
Qed.

(** A [rollout_percentage] of 150 under [filters.payloads], which the schema
    declares as a bare object, passes. *)
Lemma validateFlagSchema_payload_rollout_accepted :
  out_of_percent_range (inject_Z 150) = true /\
  validateFlagSchema
    (JObj [("key", JStr "a"); ("name", JStr "Test"); ("active", JBool true);
           ("filters", JObj [("payloads", JObj [("rollout_percentage",
                                                 JNum (inject_Z 150))])])]) None
  = Ok (JObj [("key", JStr "a"); ("name", JStr "Test"); ("active", JBool true);
              ("filters", JObj [("payloads", JObj [("rollout_percentage",
                                                    JNum (inject_Z 150))])])]).
Proof. split; vm_compute; reflexivity. Qed.

(** ** Unknown properties *)

(** C8: [schema.properties[key]] also finds the members an object literal
    inherits from [Object.prototype], so a top-level [constructor] or
    [toString] entry, declared nowhere in the schema, passes without an
    [Unknown property] violation, while an entry [foo] is reported. *)
Theorem validateFlagSchema_inherited_names_accepted :
  validateFlagSchema
    (JObj [("key", JStr "a"); ("name", JStr "b"); ("active", JBool true);
           ("constructor", JNum 1)]) None
  = Ok (JObj [("key", JStr "a"); ("name", JStr "b"); ("active", JBool true);
              ("constructor", JNum 1)]) /\
  validateFlagSchema
    (JObj [("key", JStr "a"); ("name", JStr "b"); ("active", JBool true);
           ("toString", JStr "x")]) None
  = Ok (JObj [("key", JStr "a"); ("name", JStr "b"); ("active", JBool true);
              ("toString", JStr "x")]) /\
  errors_of (validateFlagSchema
    (JObj [("key", JStr "a"); ("name", JStr "b"); ("active", JBool true);
           ("foo", JNum 1)]) None) = ["Unknown property: foo"].
Proof. split; [|split]; vm_compute; reflexivity. Qed.

(** ** Non-object inputs *)

Lemma string_of_nat_digit : forall n, exists d rest,
  string_of_nat n = String d rest /\
  In d ["0"; "1"; "2"; "3"; "4"; "5"; "6"; "7"; "8"; "9"]%char.
Proof.
  intro n. unfold string_of_nat. destruct (Nat.to_uint n) eqn:E;
    try (eexists; eexists; split; [reflexivity | simpl; tauto]).
  exfalso. pose proof (DecimalNat.Unsigned.of_to n) as H. rewrite E in H.
  simpl in H. subst n. discriminate E.
Qed.

Lemma prop_lookup_digit : forall d rest,
  In d ["0"; "1"; "2"; "3"; "4"; "5"; "6"; "7"; "8"; "9"]%char ->
  prop_lookup flag_properties (String d rest) = None.
Proof.
  intros d rest H. simpl in H.
  repeat (destruct H as [<-|H]; [reflexivity|]). destruct H.
Qed.

Lemma array_entries_errors : forall xs j,
  flat_map (entry_errors flag_properties false) (index_entries j xs)
  = map (fun i => "Unknown property: " ++ string_of_nat i) (seq j (length xs)).
Proof.
  induction xs as [|x xs IH]; intro j; [reflexivity|].
  cbn [index_entries flat_map seq map length]. rewrite IH.
  destruct (string_of_nat_digit j) as [d [rest [E Hd]]]. rewrite E.
  unfold entry_errors. rewrite prop_lookup_digit by exact Hd. reflexivity.
Qed.

(** C10 (amended): for [null], a boolean, a number or a string the error
    carries the one violation [Data must be an object]; an array passes that
    test and gets the three missing-field violations for [key], [name] and
    [active] followed by one [Unknown property] violation per index. *)
Theorem validateFlagSchema_non_objects :
  (forall v fn, match v with JNull | JBool _ | JNum _ | JStr _ => True | _ => False end ->
     errors_of (validateFlagSchema v fn) = ["Data must be an object"] /\
     result_kind (validateFlagSchema v fn) = Some SchemaViolation) /\
  (forall xs fn,
     errors_of (validateFlagSchema (JArr xs) fn) =
       app [missing_msg "key"; missing_msg "name"; missing_msg "active"]
           (map (fun i => "Unknown property: " ++ string_of_nat i) (seq 0 (length xs))) /\
     result_kind (validateFlagSchema (JArr xs) fn) = Some SchemaViolation).
Proof.
  split.
  - intros v fn Hv. rewrite validateFlagSchema_errors.
    assert (E : validateSchema v FLAG_SCHEMA = ["Data must be an object"])
      by (destruct v; try destruct Hv; reflexivity).
    split; [exact E|].
    destruct (validateFlagSchema_throw v fn) as [e [-> [_ Hk]]]; [now rewrite E|].
    simpl. now rewrite Hk.
  - intros xs fn.
    assert (E : validateSchema (JArr xs) FLAG_SCHEMA =
       app [missing_msg "key"; missing_msg "name"; missing_msg "active"]
           (map (fun i => "Unknown property: " ++ string_of_nat i) (seq 0 (length xs)))).
    { rewrite <- array_entries_errors. reflexivity. }
    rewrite validateFlagSchema_errors. split; [exact E|].
    destruct (validateFlagSchema_throw (JArr xs) fn) as [e [-> [_ Hk]]];
      [now rewrite E|].
    simpl. now rewrite Hk.
Qed.

(** An array with one element gets four violations. *)
Lemma validateFlagSchema_array_four_violations :
  errors_of (validateFlagSchema (JArr [JNum 1]) None) =
    ["Missing required field: key"; "Missing required field: name";
     "Missing required field: active"; "Unknown property: 0"].
Proof. vm_compute. reflexivity. Qed.

(** ** validateConfig *)

Lemma js_get_obj : forall fs k, is_object_proto_member k = false ->
  js_get (JObj fs) k = match assoc fs k with Some v => v | None => JUndefined end.
Proof. intros fs k H. unfold js_get. destruct (assoc fs k); [reflexivity|now rewrite H]. Qed.

Lemma not_nonempty_string_false : forall v,
  not_nonempty_string v = false <-> exists s, v = JStr s /\ s <> "".
Proof.
  intros [| |b|q|s|xs|fs]; unfold not_nonempty_string; cbn [js_falsy typeof_is_string negb];
    rewrite ?orb_true_r; split; intro H;
    try discriminate H;
    try (match goal with H : exists _, _ |- _ => destruct H as [? [E _]]; discriminate E end).
  - rewrite orb_false_r in H. exists s. split; [reflexivity|]. now apply String.eqb_neq.
  - destruct H as [s' [E Hne]]. injection E as <-. rewrite orb_false_r.
    now apply String.eqb_neq.
Qed.

Lemma optional_string_false : forall v,
  negb (is_undefined v) && negb (typeof_is_string v) = false <->
  v = JUndefined \/ typeof_is_string v = true.
Proof.
  intros [| |b|q|s|xs|fs]; simpl; split; intro H;
    try discriminate H; try (destruct H as [H|H]; discriminate H); auto.
Qed.

Lemma object_check_false : forall v,
  js_falsy v || negb (typeof_is_object v) = false <->
  (exists xs, v = JArr xs) \/ (exists fs, v = JObj fs).
Proof.
  intros [| |b|q|s|xs|fs]; simpl; rewrite ?orb_true_r; split; intro H;
    try discriminate H;
    try (destruct H as [[? E]|[? E]]; discriminate E); eauto.
Qed.

Lemma js_get_arr_host : forall xs, js_get (JArr xs) "host" = JUndefined.
Proof. reflexivity. Qed.

Lemma app_nil_iff : forall {A : Type} (l1 l2 : list A), app l1 l2 = [] <-> l1 = [] /\ l2 = [].
Proof. intros A l1 l2. split; [apply app_eq_nil | intros [-> ->]; reflexivity]. Qed.

Lemma if_nil_iff : forall (b : bool) (m : string), (if b then [m] else []) = [] <-> b = false.
Proof. intros [] m; split; intro H; (discriminate H || reflexivity). Qed.

Lemma validateConfig_errors_ok : forall c (errors : list string),
  (if Nat.ltb 0 (length errors) then
     Throw (mkValidationError msg_config_failed errors (Some [("config", c)]))
   else Ok tt) = Ok tt <-> errors = [].
Proof. intros c [|x l]; simpl; split; intro H; (discriminate H || reflexivity). Qed.

(** X2: [validateConfig] throws [Configuration must be an object], with no
    listed violations, for [undefined], [null], a boolean, a number or a
    string; an array is let through that test and fails with the
    [flagsDir], [outputFile] and [posthog] violations; an object is accepted
    exactly when [flagsDir] and [outputFile] are non-empty strings and
    [posthog] is an object whose [host] is a non-empty string and whose
    [projectId] and [apiToken] are each [undefined] or a string ([null] is
    refused). *)
Theorem validateConfig_spec :
  (forall c, match c with JArr _ | JObj _ => False | _ => True end ->
     validateConfig c = Throw (mkValidationError msg_config_not_object [] (Some [("config", c)]))) /\
  (forall xs, validateConfig (JArr xs) =
     Throw (mkValidationError msg_config_failed
              ["flagsDir must be a non-empty string"; "outputFile must be a non-empty string";
               "posthog configuration must be an object"] (Some [("config", JArr xs)]))) /\
  (forall fs, validateConfig (JObj fs) = Ok tt <->
     (exists s, js_get (JObj fs) "flagsDir" = JStr s /\ s <> "") /\
     (exists s, js_get (JObj fs) "outputFile" = JStr s /\ s <> "") /\
     (exists ph, js_get (JObj fs) "posthog" = JObj ph /\
        (exists h, js_get (JObj ph) "host" = JStr h /\ h <> "") /\
        (js_get (JObj ph) "projectId" = JUndefined
         \/ typeof_is_string (js_get (JObj ph) "projectId") = true) /\
        (js_get (JObj ph) "apiToken" = JUndefined
         \/ typeof_is_string (js_get (JObj ph) "apiToken") = true))).
Proof.
  split; [|split].
  - intros [| |b|q|s|xs|fs] H; try destruct H; try reflexivity.
    + destruct b; reflexivity.
    + unfold validateConfig. simpl. now rewrite orb_true_r.
    + unfold validateConfig. simpl. now rewrite orb_true_r.
  - intro xs. reflexivity.
  - intro fs. unfold validateConfig. cbn [js_falsy typeof_is_object negb orb].
    rewrite validateConfig_errors_ok, !app_nil_iff, !if_nil_iff,
      !not_nonempty_string_false.
    destruct (js_falsy (js_get (JObj fs) "posthog")
              || negb (typeof_is_object (js_get (JObj fs) "posthog"))) eqn:Eph.
    + split.
      * intros [_ [_ H]]. discriminate H.
      * intros [_ [_ [ph [Hph _]]]]. rewrite Hph in Eph. discriminate Eph.
    + rewrite !app_nil_iff, !if_nil_iff, !not_nonempty_string_false,
        !optional_string_false.
      apply object_check_false in Eph as [[xs Hxs]|[ph Hph]].
      * rewrite Hxs, js_get_arr_host. split.
        -- intros [_ [_ [[s [E _]] _]]]. discriminate E.
        -- intros [_ [_ [ph [E _]]]]. congruence.
      * rewrite Hph. split.
        -- intros [H1 [H2 [H3 [H4 H5]]]]. split; [exact H1|]. split; [exact H2|].
           exists ph. auto.
        -- intros [H1 [H2 [ph' [E [H3 [H4 H5]]]]]]. injection E as <-. auto.
Qed.

(** ** loadConfig *)

Lemma env_or_nonempty : forall env var dflt, dflt <> "" -> env_or env var dflt <> "".
Proof.
  intros env var dflt H. unfold env_or. destruct (env var) as [v|]; [|exact H].
  destruct (String.eqb v "") eqn:E; [exact H|]. now apply String.eqb_neq.
Qed.

Lemma env_or_eqb : forall env var dflt, dflt <> "" -> String.eqb (env_or env var dflt) "" = false.
Proof. intros. apply String.eqb_neq. now apply env_or_nonempty. Qed.

Lemma defaultConfig_valid : forall env, validateConfig (defaultConfig env) = Ok tt.
Proof.
  intro env. unfold validateConfig, not_nonempty_string. simpl.
  rewrite env_or_eqb by discriminate. reflexivity.
Qed.

Lemma assoc_set_entry : forall fs k v k',
  assoc (set_entry fs k v) k' = if String.eqb k' k then Some v else assoc fs k'.
Proof.
  induction fs as [|[k1 v1] fs IH]; intros k v k'; simpl.
  - destruct (String.eqb k' k); reflexivity.
  - destruct (String.eqb k k1) eqn:E1.
    + apply String.eqb_eq in E1. subst k1. simpl. destruct (String.eqb k' k); reflexivity.
    + simpl. rewrite IH. destruct (String.eqb k' k1) eqn:E2, (String.eqb k' k) eqn:E3;
        try reflexivity.
      apply String.eqb_eq in E2, E3. subst. now rewrite String.eqb_refl in E1.
Qed.

Lemma assoc_spread_into_notin : forall u fs k,
  (forall kv, In kv (spread_entries u) -> fst kv <> k) ->
  assoc (spread_into fs u) k = assoc fs k.
Proof.
  intros u. unfold spread_into. generalize (spread_entries u) as l.
  induction l as [|[k1 v1] l IH]; intros fs k H; [reflexivity|].
  simpl. rewrite IH by (intros kv Hkv; apply H; now right).
  rewrite assoc_set_entry.
  destruct (String.eqb k k1) eqn:E; [|reflexivity].
  apply String.eqb_eq in E. exfalso. apply (H (k1, v1)); [now left | simpl; congruence].
Qed.

Lemma assoc_none_notin : forall (fs : list (string * jsval)) k,
  (forall kv, In kv fs -> fst kv <> k) -> assoc fs k = None.
Proof.
  induction fs as [|[k1 v1] fs IH]; intros k H; [reflexivity|]. simpl.
  destruct (String.eqb k k1) eqn:E.
  - apply String.eqb_eq in E. exfalso. apply (H (k1, v1)); [now left | simpl; congruence].
  - apply IH. intros kv Hkv. apply H. now right.
Qed.

Lemma js_get_posthog_absent : forall u,
  (forall kv, In kv (spread_entries u) -> fst kv <> "posthog") ->
  js_get u "posthog" = JUndefined.
Proof.
  intros [| | | | | xs | fs] H; try reflexivity.
  rewrite js_get_obj by reflexivity. now rewrite assoc_none_notin.
Qed.

Lemma mergedConfig_posthog : forall env u,
  js_get (mergedConfig env u) "posthog" =
  JObj (spread_into (spread_into [] (js_get (defaultConfig env) "posthog"))
                    (js_get u "posthog")).
Proof.
  intros env u. unfold mergedConfig. rewrite js_get_obj by reflexivity.
  rewrite !assoc_set_entry. reflexivity.
Qed.

Lemma mergedConfig_obj : forall env u, exists L, mergedConfig env u = JObj L.
Proof. intros env u. eexists. reflexivity. Qed.

Lemma validatePath_errors_not_posthog : forall cwd fp base e,
  validatePath cwd fp base = Throw e ->
  ~ In "posthog configuration must be an object" (ve_validationErrors e).
Proof.
  intros cwd fp base e H. unfold validatePath in H.
  destruct fp; try (injection H as <-; simpl; tauto).
  destruct (js_falsy (JStr s)); [injection H as <-; simpl; tauto|].
  destruct (_ || _); [injection H as <-; simpl; intros [E|[]]; discriminate E|].
  destruct (has_nul _); [injection H as <-; simpl; tauto | discriminate H].
Qed.

(** X3: every configuration [loadConfig] resolves to passes
    [validateConfig]: the merged configuration because [loadConfig] checks
    it, and the defaults it returns when the file does not exist for every
    value of the [POSTHOG_*] environment variables. *)
Theorem loadConfig_result_valid : forall cwd env fileExists importConfig configPath c,
  loadConfig cwd env fileExists importConfig configPath = Loaded c ->
  validateConfig c = Ok tt.
Proof.
  intros cwd env fe imp path c H. unfold loadConfig in H.
  destruct (validatePath cwd (JStr path) cwd) as [p|e]; [|discriminate H].
  destruct (fe p); cbn [negb] in H.
  - destruct (_ || _); [discriminate H|].
    destruct (validateConfig (mergedConfig env (imp p))) as [[]|e] eqn:E; [|discriminate H].
    injection H as <-. exact E.
  - injection H as <-. apply defaultConfig_valid.
Qed.

(** X4: the merged configuration always has an object under [posthog], so
    [loadConfig] never fails with [posthog configuration must be an object],
    whatever the config file exports; and a config file exporting an object
    without own [flagsDir], [outputFile] and [posthog] entries always loads,
    to the merge of the defaults with it. *)
Theorem loadConfig_merge : forall cwd env fileExists importConfig configPath,
  (forall e, loadConfig cwd env fileExists importConfig configPath = LoadThrows e ->
     ~ In "posthog configuration must be an object" (ve_validationErrors e)) /\
  (forall p, validatePath cwd (JStr configPath) cwd = Ok p -> fileExists p = true ->
     typeof_is_object (importConfig p) = true -> importConfig p <> JNull ->
     (forall kv, In kv (spread_entries (importConfig p)) ->
        ~ In (fst kv) ["flagsDir"; "outputFile"; "posthog"]) ->
     loadConfig cwd env fileExists importConfig configPath
       = Loaded (mergedConfig env (importConfig p))).
Proof.
  intros cwd env fe imp path. split.
  - intros e H. unfold loadConfig in H.
    destruct (validatePath cwd (JStr path) cwd) as [p|e'] eqn:Ev;
      [|injection H as <-; exact (validatePath_errors_not_posthog _ _ _ _ Ev)].
    destruct (fe p); cbn [negb] in H; [|discriminate H].
    destruct (_ || _); [discriminate H|].
    destruct (validateConfig (mergedConfig env (imp p))) as [[]|e'] eqn:E; [discriminate H|].
    injection H as <-. unfold validateConfig in E.
    rewrite mergedConfig_posthog in E.
    destruct (mergedConfig_obj env (imp p)) as [L HL]. rewrite HL in E.
    cbn [js_falsy typeof_is_object negb orb] in E.
    destruct (Nat.ltb 0 _); [|discriminate E]. injection E as <-. simpl.
    repeat match goal with |- context [if ?b then _ else _] => destruct b end;
      simpl; intuition discriminate.
  - intros p Hv Hf Ho Hn Hk. unfold loadConfig. rewrite Hv, Hf. cbn [negb orb].
    rewrite Ho. cbn [negb orb].
    replace (is_null (imp p)) with false by (destruct (imp p) eqn:Ei; simpl; congruence).
    all: assert (Hvc : validateConfig (mergedConfig env (imp p)) = Ok tt);
      [|now rewrite Hvc].
    all: assert (Hnot : forall k, In k ["flagsDir"; "outputFile"; "posthog"] ->
                   forall kv, In kv (spread_entries (imp p)) -> fst kv <> k)
      by (intros k Hin kv Hkv E; apply (Hk kv Hkv); now rewrite E).
    all: assert (Hf' : js_get (mergedConfig env (imp p)) "flagsDir" = JStr "feature-flags")
      by (unfold mergedConfig; rewrite js_get_obj, !assoc_set_entry by reflexivity;
          simpl String.eqb; cbv iota;
          rewrite assoc_spread_into_notin by (apply Hnot; simpl; tauto); reflexivity).
    all: assert (Ho' : js_get (mergedConfig env (imp p)) "outputFile"
                       = JStr "src/generated/feature-flags.ts")
      by (unfold mergedConfig; rewrite js_get_obj, !assoc_set_entry by reflexivity;
          simpl String.eqb; cbv iota;
          rewrite assoc_spread_into_notin by (apply Hnot; simpl; tauto); reflexivity).
    all: unfold validateConfig; rewrite Hf', Ho', mergedConfig_posthog,
      (js_get_posthog_absent (imp p)) by (apply Hnot; simpl; tauto).
    all: destruct (mergedConfig_obj env (imp p)) as [L HL]; rewrite HL.
    all: unfold not_nonempty_string; simpl; rewrite env_or_eqb by discriminate; reflexivity.
Qed.

(** ** The generateFlags and handleValidate loops *)

Lemma validateFlagSchema_ok_inv : forall d fn v,
  validateFlagSchema d fn = Ok v -> v = d /\ validateSchema d FLAG_SCHEMA = [].
Proof.
  intros d fn v H. unfold validateFlagSchema in H.
  destruct (validateSchema d FLAG_SCHEMA); [injection H as <-; auto | discriminate H].
Qed.

Lemma assoc_In : forall {A : Type} (l : list (string * A)) k v,
  assoc l k = Some v -> In (k, v) l.
Proof.
  intros A l k v. induction l as [|[k' v'] l IH]; intro H; [discriminate H|].
  simpl in H. destruct (String.eqb k k') eqn:E.
  - apply String.eqb_eq in E. injection H as <-. subst. now left.
  - right. now apply IH.
Qed.

Lemma flat_map_nil_in : forall {A B : Type} (f : A -> list B) l x,
  flat_map f l = [] -> In x l -> f x = [].
Proof.
  intros A B f l x H Hx. destruct (f x) as [|y ys] eqn:E; [reflexivity|].
  assert (Hy : In y (flat_map f l)) by (apply in_flat_map; exists x; rewrite E; now split; [|left]).
  rewrite H in Hy. destruct Hy.
Qed.

(** A flag object that passes the schema has a string key of 1 to 100
    characters that matches the key pattern. *)
Lemma valid_flag_key : forall d, validateSchema d FLAG_SCHEMA = [] ->
  exists s, js_get d "key" = JStr s /\ key_pattern_test s = true /\
    (1 <= String.length s <= 100)%nat.
Proof.
  intros [| |b|q|s|xs|fs] H; try discriminate H.
  rewrite validateSchema_obj in H. apply app_eq_nil in H as [Hr He].
  unfold required_errors in Hr. cbn [flat_map] in Hr.
  destruct (negb (js_in (JObj fs) "key") || is_undefined_or_null (js_get (JObj fs) "key"))
    eqn:Ek; [discriminate Hr|].
  rewrite js_get_obj in Ek |- * by reflexivity.
  destruct (assoc fs "key") as [v|] eqn:Ea; [|rewrite orb_true_r in Ek; discriminate Ek].
  pose proof (flat_map_nil_in _ _ _ He (assoc_In fs "key" v Ea)) as Hv.
  change (validateProperty v key_schema "key" = []) in Hv.
  destruct v as [| |b|q|s|xs|fs']; try discriminate Hv.
  apply key_property_nil in Hv as [H1 [H2 H3]].
  apply Z.ltb_ge in H1. apply Z.ltb_ge in H2.
  exists s. split; [reflexivity|]. split; [exact H3|]. lia.
Qed.

Lemma generate_loop_acc : forall fs read dir files ks fcs,
  fold_left (fun st file =>
               let '(keys, flagConfigs) := st in
               match generate_one fs read dir file with
               | Some validatedFlag =>
                   (app keys [js_get validatedFlag "key"], app flagConfigs [validatedFlag])
               | None => (keys, flagConfigs)
               end) files (ks, fcs)
  = (app ks (map (fun f => js_get f "key") (flat_map (generate_step fs read dir) files)),
     app fcs (flat_map (generate_step fs read dir) files)).
Proof.
  intros fs read dir files. induction files as [|file files IH]; intros ks fcs.
  - simpl. now rewrite !app_nil_r.
  - cbn [fold_left flat_map].
    destruct (generate_one fs read dir file) as [f|] eqn:E; rewrite IH.
    + replace (generate_step fs read dir file) with [f] by (unfold generate_step; now rewrite E).
      rewrite map_app, <- !app_assoc. reflexivity.
    + replace (generate_step fs read dir file) with (@nil jsval)
        by (unfold generate_step; now rewrite E).
      reflexivity.
Qed.

(** X5: [generateFlags] collects, in the order of the files, the flag of
    every file that passes the size check, is read and parsed, and passes
    [validateFlagSchema], and drops every other file; [keys] holds their
    [key]s, each a string of 1 to 100 characters matching the key pattern,
    so made of [a-z], [0-9] and inner hyphens only. *)
Theorem generateFlags_collects_valid : forall fs read safeFlagsDir files,
  snd (generate_loop fs read safeFlagsDir files)
    = flat_map (fun file => match generate_one fs read safeFlagsDir file with
                            | Some f => [f] | None => [] end) files /\
  fst (generate_loop fs read safeFlagsDir files)
    = map (fun f => js_get f "key") (snd (generate_loop fs read safeFlagsDir files)) /\
  Forall (fun f => validateSchema f FLAG_SCHEMA = []) (snd (generate_loop fs read safeFlagsDir files)) /\
  Forall (fun k => exists s, k = JStr s /\ key_pattern_test s = true /\
                     (1 <= String.length s <= 100)%nat)
         (fst (generate_loop fs read safeFlagsDir files)).
Proof.
  intros fs read dir files. unfold generate_loop. rewrite generate_loop_acc. cbn [fst snd app].
  assert (Hv : Forall (fun f => validateSchema f FLAG_SCHEMA = [])
                      (flat_map (generate_step fs read dir) files)).
  { apply Forall_forall. intros f Hf. apply in_flat_map in Hf as [file [_ Hf]].
    unfold generate_step, generate_one in Hf.
    destruct (validateFileSize _ _ _); [|destruct Hf].
    destruct (read _) as [json|]; [|destruct Hf].
    destruct (validateFlagSchema json (Some file)) as [v|] eqn:E; [|destruct Hf].
    destruct Hf as [<-|[]]. apply validateFlagSchema_ok_inv in E as [-> E]. exact E. }
  split; [reflexivity|]. split; [reflexivity|]. split; [exact Hv|].
  apply Forall_map. eapply Forall_impl; [|exact Hv].
  intros f Hf. destruct (valid_flag_key f Hf) as [s [E [H1 H2]]]. exists s. auto.
Qed.

Lemma validate_one_true : forall read dir file,
  validate_one read dir file = true <->
  exists flag, read (path_join dir file) = Some flag /\ validateSchema flag FLAG_SCHEMA = [].
Proof.
  intros read dir file. unfold validate_one.
  destruct (read (path_join dir file)) as [flag|]; split.
  - intro H. exists flag. split; [reflexivity|].
    destruct (validateFlagSchema flag (Some file)) as [v|] eqn:E; [|discriminate H].
    now apply validateFlagSchema_ok_inv in E.
  - intros [fl [E H]]. injection E as <-. now rewrite validateFlagSchema_ok.
  - discriminate.
  - intros [fl [E _]]. discriminate E.
Qed.

(** X6: [generateFlags] keeps the flag of a file exactly when the [validate]
    command reports that file valid and, in addition, the file exists and
    holds at most 1048576 bytes ([validate] does not check the size). *)
Theorem generate_one_iff_validate : forall fs read safeFlagsDir file f,
  generate_one fs read safeFlagsDir file = Some f <->
  validate_one read safeFlagsDir file = true /\ read (path_join safeFlagsDir file) = Some f /\
  exists n, fs (path_join safeFlagsDir file) = FileSize n /\ (n <= 1024 * 1024)%N.
Proof.
  intros fs read dir file f. unfold generate_one, validate_one, validateFileSize.
  destruct (fs (path_join dir file)) as [|n|m] eqn:Efs.
  - split; [discriminate|]. intros [_ [_ [n [E _]]]]. discriminate E.
  - destruct ((1024 * 1024 <? n)%N) eqn:En.
    + split; [discriminate|]. intros [_ [_ [n' [E Hle]]]]. injection E as <-.
      apply N.ltb_lt in En. lia.
    + destruct (read (path_join dir file)) as [json|]; split.
      * intro H. destruct (validateFlagSchema json (Some file)) as [v|] eqn:E; [|discriminate H].
        injection H as <-. apply validateFlagSchema_ok_inv in E as [-> _].
        split; [reflexivity|]. split; [reflexivity|]. exists n. split; [reflexivity|].
        apply N.ltb_ge in En. exact En.
      * intros [H1 [H2 _]]. injection H2 as <-.
        destruct (validateFlagSchema json (Some file)) as [v|] eqn:E; [|discriminate H1].
        apply validateFlagSchema_ok_inv in E as [-> _]. reflexivity.
      * discriminate.
      * intros [H _]. discriminate H.
  - split; [discriminate|]. intros [_ [_ [n [E _]]]]. discriminate E.
Qed.

Lemma hasErrors_fold : forall read dir files acc,
  fold_left (fun hasErrors file => if validate_one read dir file then hasErrors else true)
            files acc
  = acc || existsb (fun file => negb (validate_one read dir file)) files.
Proof.
  intros read dir files. induction files as [|file files IH]; intro acc.
  - simpl. now rewrite orb_false_r.
  - simpl. rewrite IH. destruct (validate_one read dir file); simpl.
    + reflexivity.
    + now rewrite orb_true_r.
Qed.

(** X7: the [validate] command goes through every flag file and fails
    (exit code 1) exactly when at least one of them cannot be read and
    parsed or breaks the flag schema. *)
Theorem handleValidate_hasErrors_spec : forall read safeFlagsDir files,
  handleValidate_hasErrors read safeFlagsDir files = true <->
  exists file, In file files /\
    (read (path_join safeFlagsDir file) = None \/
     exists flag, read (path_join safeFlagsDir file) = Some flag /\
                  validateSchema flag FLAG_SCHEMA <> []).
Proof.
  intros read dir files. unfold handleValidate_hasErrors. rewrite hasErrors_fold.
  cbn [orb]. rewrite existsb_exists. split.
  - intros [file [Hin H]]. exists file. split; [exact Hin|].
    destruct (validate_one read dir file) eqn:E; [discriminate H|].
    destruct (read (path_join dir file)) as [flag|] eqn:Er; [|now left].
    right. exists flag. split; [reflexivity|]. intro Hs.
    assert (validate_one read dir file = true) by (apply validate_one_true; eauto).
    congruence.
  - intros [file [Hin H]]. exists file. split; [exact Hin|].
    destruct (validate_one read dir file) eqn:E; [|reflexivity].
    apply validate_one_true in E as [fl [E1 E2]].
    destruct H as [H|[flag [H1 H2]]]; congruence.
Qed.

(** ** formatConstantName *)

Lemma lower_alnum_or_hyphen_not_space : forall c,
  is_lower_alnum_or_hyphen c = true -> is_js_space c = false.
Proof. intros [[] [] [] [] [] [] [] []]; vm_compute; intro H; first [discriminate H | reflexivity]. Qed.

Lemma lower_alnum_first : forall c, is_lower_alnum c = true ->
  Ascii.eqb c "-"%char = false /\ is_word_char c = true /\ ascii_to_lower c = c.
Proof.
  intros [[] [] [] [] [] [] [] []]; vm_compute; intro H;
    first [discriminate H | repeat split].
Qed.

Lemma snake_inj : forall k1 k2,
  forallb is_lower_alnum_or_hyphen (list_ascii_of_string k1) = true ->
  forallb is_lower_alnum_or_hyphen (list_ascii_of_string k2) = true ->
  replace_dash_space "_" k1 = replace_dash_space "_" k2 -> k1 = k2.
Proof.
  induction k1 as [|c1 r1 IH]; intros [|c2 r2] H1 H2 E; cbn [list_ascii_of_string forallb] in *.
  - reflexivity.
  - apply andb_true_iff in H2 as [P2 _]. simpl in E.
    rewrite (lower_alnum_or_hyphen_not_space c2 P2), orb_false_r in E.
    destruct (Ascii.eqb c2 "-"); discriminate E.
  - apply andb_true_iff in H1 as [P1 _]. simpl in E.
    rewrite (lower_alnum_or_hyphen_not_space c1 P1), orb_false_r in E.
    destruct (Ascii.eqb c1 "-"); discriminate E.
  - apply andb_true_iff in H1 as [P1 F1]. apply andb_true_iff in H2 as [P2 F2].
    simpl in E. rewrite (lower_alnum_or_hyphen_not_space c1 P1),
      (lower_alnum_or_hyphen_not_space c2 P2), !orb_false_r in E.
    pose proof (lower_alnum_or_hyphen_classes c1 P1) as [_ [U1 _]].
    pose proof (lower_alnum_or_hyphen_classes c2 P2) as [_ [U2 _]].
    destruct (Ascii.eqb c1 "-") eqn:E1, (Ascii.eqb c2 "-") eqn:E2; simpl in E.
    + apply Ascii.eqb_eq in E1, E2. subst. injection E as Er. f_equal. now apply IH.
    + injection E as Ec Er. subst c2. discriminate U2.
    + injection E as Ec Er. subst c1. discriminate U1.
    + injection E as Ec Er. subst c2. f_equal. now apply IH.
Qed.

Lemma replace_empty_drop : forall k,
  forallb is_lower_alnum_or_hyphen (list_ascii_of_string k) = true ->
  replace_dash_space "" k = drop_hyphens k.
Proof.
  induction k as [|c r IH]; intro H; [reflexivity|].
  cbn [list_ascii_of_string forallb] in H. apply andb_true_iff in H as [P F].
  simpl. rewrite (lower_alnum_or_hyphen_not_space c P), orb_false_r.
  destruct (Ascii.eqb c "-"); simpl; [|f_equal]; now apply IH.
Qed.

Lemma camel_name : forall toUpperCase k, key_pattern_test k = true ->
  formatConstantName toUpperCase "camelCase" (JStr k) = Some (drop_hyphens k).
Proof.
  intros up k H. destruct (key_pattern_facts k H) as [F [Hfirst _]].
  destruct k as [|c r]; [discriminate H|].
  pose proof (Hfirst c (list_ascii_of_string r) eq_refl) as Hc.
  destruct (lower_alnum_first c Hc) as [Hh [Hw Hl]].
  unfold formatConstantName. cbn [String.eqb]. simpl String.eqb. cbv iota.
  rewrite (replace_empty_drop _ F). cbn [drop_hyphens]. rewrite Hh. simpl.
  now rewrite Hw, Hl.
Qed.

(** X8: under the default [snake_case] convention (any convention other
    than [camelCase] and [SCREAMING_SNAKE_CASE]) two keys that match the key
    pattern and get the same constant name are the same key, so the
    constants [generateFlags] writes for distinct validated flags are
    distinct. *)
Theorem formatConstantName_snake_injective : forall toUpperCase convention k1 k2,
  convention <> "camelCase" -> convention <> "SCREAMING_SNAKE_CASE" ->
  key_pattern_test k1 = true -> key_pattern_test k2 = true ->
  formatConstantName toUpperCase convention (JStr k1)
    = formatConstantName toUpperCase convention (JStr k2) ->
  k1 = k2.
Proof.
  intros up conv k1 k2 Hc Hs H1 H2 E.
  destruct (key_pattern_facts k1 H1) as [F1 _]. destruct (key_pattern_facts k2 H2) as [F2 _].
  unfold formatConstantName in E.
  destruct (String.eqb k1 "") eqn:Z1; [apply String.eqb_eq in Z1; subst; discriminate H1|].
  destruct (String.eqb k2 "") eqn:Z2; [apply String.eqb_eq in Z2; subst; discriminate H2|].
  rewrite (proj2 (String.eqb_neq _ _) Hc), (proj2 (String.eqb_neq _ _) Hs) in E.
  injection E as E. exact (snake_inj k1 k2 F1 F2 E).
Qed.

(** X9: under [camelCase] a key that matches the key pattern becomes the key
    without its hyphens, so two validated keys get the same constant name
    exactly when they are equal once their hyphens are dropped (as
    [dark-mode] and [darkmode] are). *)
Theorem formatConstantName_camel_collisions : forall toUpperCase k1 k2,
  key_pattern_test k1 = true -> key_pattern_test k2 = true ->
  formatConstantName toUpperCase "camelCase" (JStr k1) = Some (drop_hyphens k1) /\
  (formatConstantName toUpperCase "camelCase" (JStr k1)
     = formatConstantName toUpperCase "camelCase" (JStr k2)
   <-> drop_hyphens k1 = drop_hyphens k2).
Proof.
  intros up k1 k2 H1 H2. rewrite !camel_name by assumption.
  split; [reflexivity|]. split; [intro E; now injection E | intros ->; reflexivity].
Qed.

(** ** The text of a schema failure *)

(** X10: the error [validateFlagSchema] throws names the file but none of the
    violations: its message is [Feature flag validation failed in <file>]
    and [getFormattedMessage] gives
    [[VALIDATION_ERROR] Feature flag validation failed in <file> (fileName: <file>)],
    or [Feature flag validation failed] and
    [[VALIDATION_ERROR] Feature flag validation failed] without a file name. *)
Theorem validateFlagSchema_error_text : forall numToString d e,
  (forall f, f <> "" -> validateFlagSchema d (Some f) = Throw e ->
     ve_message e = "Feature flag validation failed in " ++ f /\
     getFormattedMessage numToString e =
       "[VALIDATION_ERROR] Feature flag validation failed in " ++ f ++ " (fileName: " ++ f ++ ")") /\
  (validateFlagSchema d None = Throw e ->
     ve_message e = "Feature flag validation failed" /\
     getFormattedMessage numToString e = "[VALIDATION_ERROR] Feature flag validation failed").
Proof.
  intros num d e. split.
  - intros f Hf H. unfold validateFlagSchema in H.
    rewrite (proj2 (String.eqb_neq f "") Hf) in H.
    destruct (Nat.ltb 0 _); [|discriminate H]. injection H as <-.
    split; [reflexivity|]. unfold getFormattedMessage. simpl. rewrite ?str_app_assoc. reflexivity.
  - intro H. unfold validateFlagSchema in H.
    destruct (Nat.ltb 0 _); [|discriminate H]. injection H as <-. split; reflexivity.
Qed.

(** ** Length limits of name and description *)

Lemma validateSchema_only_entry : forall pre post kk x s sch,
  prop_lookup flag_properties kk = Some sch ->
  validateSchema (JObj (app pre ((kk, JStr x) :: post))) FLAG_SCHEMA = [] ->
  validateSchema (JObj (app pre ((kk, JStr s) :: post))) FLAG_SCHEMA
    = validateProperty (JStr s) sch kk.
Proof.
  intros pre post kk x s sch Hl H. rewrite validateSchema_obj in *.
  rewrite (required_swap pre post kk s x). rewrite flat_map_app in *. cbn [flat_map] in *.
  apply app_eq_nil in H as [Hr Hf]. apply app_eq_nil in Hf as [Hpre Hrest].
  apply app_eq_nil in Hrest as [_ Hpost].
  rewrite Hr, Hpre, Hpost. cbn [app]. rewrite app_nil_r.
  unfold entry_errors. now rewrite Hl.
Qed.

Lemma required_snoc : forall fields k v req, (forall f, In f req -> f <> k) ->
  required_errors (JObj (app fields [(k, v)])) req = required_errors (JObj fields) req.
Proof.
  intros fields k v req. induction req as [|f req IH]; intro H; [reflexivity|].
  unfold required_errors in *. cbn [flat_map].
  rewrite IH by (intros g Hg; apply H; now right).
  assert (Hk : String.eqb k f = false) by (apply String.eqb_neq; intro E; apply (H f); [now left|auto]).
  assert (Hk' : String.eqb f k = false) by (rewrite String.eqb_sym; exact Hk).
  unfold js_in, js_get. rewrite existsb_app, assoc_app. cbn [existsb fst assoc].
  rewrite Hk, Hk'. rewrite orb_false_r. destruct (assoc fields f); reflexivity.
Qed.

Lemma validateSchema_snoc : forall fields k v, ~ In k ["key"; "name"; "active"] ->
  validateSchema (JObj (app fields [(k, v)])) FLAG_SCHEMA =
  app (validateSchema (JObj fields) FLAG_SCHEMA) (entry_errors flag_properties false (k, v)).
Proof.
  intros fields k v H. rewrite !validateSchema_obj, flat_map_app. cbn [flat_map].
  rewrite app_nil_r, required_snoc, app_assoc; [reflexivity|].
  intros f Hf E. subst f. contradiction.
Qed.

Lemma Z_of_nat_ltb_1 : forall n, (Z.of_nat n <? 1)%Z = Nat.eqb n 0.
Proof.
  intros [|n]; [reflexivity|]. apply Z.ltb_ge. lia.
Qed.

Lemma Z_ltb_of_nat : forall m n, (Z.of_nat m <? Z.of_nat n)%Z = Nat.ltb m n.
Proof.
  intros m n. destruct (Nat.ltb_spec m n); [apply Z.ltb_lt | apply Z.ltb_ge]; lia.
Qed.

Lemma validateFlagSchema_ok_iff : forall d fn,
  validateFlagSchema d fn = Ok d <-> validateSchema d FLAG_SCHEMA = [].
Proof.
  intros d fn. split; [intro H; now apply validateFlagSchema_ok_inv in H | apply validateFlagSchema_ok].
Qed.

(** X11: in a flag object that is valid with the name [x], a string name
    [s] gives exactly the violation [name must be at least 1 characters long]
    when it is empty and [name must be no more than 200 characters long]
    when it has over 200 characters; the object is accepted exactly when the
    name has 1 to 200 characters. *)
Theorem validateFlagSchema_name_length : forall pre post s fn,
  validateSchema (JObj (app pre (("name", JStr "x") :: post))) FLAG_SCHEMA = [] ->
  errors_of (validateFlagSchema (JObj (app pre (("name", JStr s) :: post))) fn) =
    app (if Nat.eqb (String.length s) 0 then ["name must be at least 1 characters long"] else [])
        (if Nat.ltb 200 (String.length s)
         then ["name must be no more than 200 characters long"] else []) /\
  (validateFlagSchema (JObj (app pre (("name", JStr s) :: post))) fn
     = Ok (JObj (app pre (("name", JStr s) :: post)))
   <-> (1 <= String.length s <= 200)%nat).
Proof.
  intros pre post s fn H.
  assert (E : validateSchema (JObj (app pre (("name", JStr s) :: post))) FLAG_SCHEMA =
    app (if Nat.eqb (String.length s) 0 then ["name must be at least 1 characters long"] else [])
        (if Nat.ltb 200 (String.length s)
         then ["name must be no more than 200 characters long"] else [])).
  { rewrite (validateSchema_only_entry pre post "name" "x" s _ eq_refl H).
    simpl. rewrite Z_of_nat_ltb_1.
    change 200%Z with (Z.of_nat 200). rewrite Z_ltb_of_nat, !app_nil_r. reflexivity. }
  split; [now rewrite validateFlagSchema_errors|].
  rewrite validateFlagSchema_ok_iff, E.
  destruct (Nat.eqb_spec (String.length s) 0), (Nat.ltb_spec 200 (String.length s));
    simpl; split; intro Hx; try discriminate Hx; lia || reflexivity.
Qed.

(** X12: adding a string [description] [s] to a valid flag object that has
    none gives exactly the violation
    [description must be no more than 1000 characters long] when [s] has
    over 1000 characters, and nothing otherwise (an empty description is
    accepted). *)
Theorem validateFlagSchema_description_length : forall fields s fn,
  validateSchema (JObj fields) FLAG_SCHEMA = [] -> assoc fields "description" = None ->
  errors_of (validateFlagSchema (JObj (app fields [("description", JStr s)])) fn) =
    (if Nat.ltb 1000 (String.length s)
     then ["description must be no more than 1000 characters long"] else []) /\
  (validateFlagSchema (JObj (app fields [("description", JStr s)])) fn
     = Ok (JObj (app fields [("description", JStr s)]))
   <-> (String.length s <= 1000)%nat).
Proof.
  intros fields s fn H _.
  assert (E : validateSchema (JObj (app fields [("description", JStr s)])) FLAG_SCHEMA =
    (if Nat.ltb 1000 (String.length s)
     then ["description must be no more than 1000 characters long"] else [])).
  { rewrite validateSchema_snoc by (simpl; intuition discriminate). rewrite H.
    simpl. change 1000%Z with (Z.of_nat 1000). rewrite Z_ltb_of_nat, !app_nil_r.
    reflexivity. }
  split; [now rewrite validateFlagSchema_errors|].
  rewrite validateFlagSchema_ok_iff, E.
  destruct (Nat.ltb_spec 1000 (String.length s)); split; intro Hx;
    try discriminate Hx; lia || reflexivity.
Qed.

(** ** Where the violations come from *)

Lemma list_sum_in : forall n l, In n l -> (n <= list_sum l)%nat.
Proof.
  intros n l. induction l as [|a l IH]; intro H; [destruct H|].
  simpl. destruct H as [->|H]; [lia|]. specialize (IH H). lia.
Qed.

Lemma size_arr : forall x xs, In x xs -> (jsval_size x < jsval_size (JArr xs))%nat.
Proof.
  intros x xs H. simpl. pose proof (list_sum_in (jsval_size x) (map jsval_size xs)
    (in_map jsval_size xs x H)). lia.
Qed.

Lemma size_obj : forall k x fs, In (k, x) fs -> (jsval_size x < jsval_size (JObj fs))%nat.
Proof.
  intros k x fs H. simpl.
  pose proof (list_sum_in (jsval_size x) (map (fun kv => jsval_size (snd kv)) fs)
    (in_map (fun kv => jsval_size (snd kv)) fs (k, x) H)). simpl in H0. lia.
Qed.

Lemma validateProperty_eq : forall v sch p,
  validateProperty v sch p =
  match type_error v sch p with
  | Some e => [e]
  | None =>
      app (string_errors v sch p)
      (app (number_errors v sch p)
      (app (match v, sc_get sch "items" with
            | JArr xs, Some (SSchema it) => items_errors it p 0 xs
            | _, _ => []
            end)
      (app (match v, sc_get sch "properties" with
            | JObj fs, Some (SProps ps) => props_errors ps p fs
            | _, _ => []
            end)
           (enum_errors v sch p))))
  end.
Proof. intros [] sch p; reflexivity. Qed.

Ltac prefix_tac :=
  repeat match goal with
  | H : In _ [] |- _ => destruct H
  | H : In _ (_ :: _) |- _ => destruct H as [<-|H]
  | H : In _ (app _ _) |- _ => apply in_app_or in H as [H|H]
  | H : Some _ = Some _ |- _ => injection H as <-
  | H : None = Some _ |- _ => discriminate H
  | H : context [match ?x with _ => _ end] |- _ => destruct x
  | H : context [if ?b then _ else _] |- _ => destruct b
  | |- exists r, (?p ++ _)%string = (?p ++ r)%string => eexists; reflexivity
  end.

Lemma type_error_prefix : forall v sch p e, type_error v sch p = Some e ->
  exists r, e = (p ++ r)%string.
Proof. intros v sch p e H. unfold type_error in H. prefix_tac. Qed.

Lemma string_errors_prefix : forall v sch p m, In m (string_errors v sch p) ->
  exists r, m = (p ++ r)%string.
Proof. intros v sch p m H. unfold string_errors in H. prefix_tac. Qed.

Lemma number_errors_prefix : forall v sch p m, In m (number_errors v sch p) ->
  exists r, m = (p ++ r)%string.
Proof. intros v sch p m H. unfold number_errors in H. prefix_tac. Qed.

Lemma enum_errors_prefix : forall v sch p m, In m (enum_errors v sch p) ->
  exists r, m = (p ++ r)%string.
Proof. intros v sch p m H. unfold enum_errors in H. prefix_tac. Qed.

Lemma items_errors_in_inv : forall it p xs j m, In m (items_errors it p j xs) ->
  exists i x, In x xs /\ In m (validateProperty x it (p ++ "[" ++ string_of_nat i ++ "]")).
Proof.
  intros it p xs. induction xs as [|y xs IH]; intros j m H; [destruct H|].
  change (In m (app (validateProperty y it (p ++ "[" ++ string_of_nat j ++ "]"))
                    (items_errors it p (S j) xs))) in H.
  apply in_app_or in H as [H|H].
  - exists j, y. split; [now left | exact H].
  - destruct (IH (S j) m H) as [i [x [Hx Hm]]]. exists i, x. split; [now right | exact Hm].
Qed.

Lemma props_errors_in_inv : forall ps p fs m, In m (props_errors ps p fs) ->
  exists k x s, In (k, x) fs /\ In m (validateProperty x s (p ++ "." ++ k)).
Proof.
  intros ps p fs. induction fs as [|[k y] fs IH]; intros m H; [destruct H|].
  change (In m (app (match prop_lookup ps k with
                     | Some ps' => validateProperty y ps' (p ++ "." ++ k)
                     | None => [] end) (props_errors ps p fs))) in H.
  apply in_app_or in H as [H|H].
  - destruct (prop_lookup ps k) as [s|]; [|destruct H].
    exists k, y, s. split; [now left | exact H].
  - destruct (IH m H) as [k' [x [s [Hx Hm]]]]. exists k', x, s. split; [now right | exact Hm].
Qed.

Lemma validateProperty_prefix_n : forall n v sch p m, (jsval_size v < n)%nat ->
  In m (validateProperty v sch p) -> exists r, m = (p ++ r)%string.
Proof.
  induction n as [|n IH]; intros v sch p m Hs H; [lia|].
  rewrite validateProperty_eq in H.
  destruct (type_error v sch p) as [e|] eqn:Et.
  { destruct H as [<-|[]]. exact (type_error_prefix v sch p e Et). }
  apply in_app_or in H as [H|H]; [exact (string_errors_prefix v sch p m H)|].
  apply in_app_or in H as [H|H]; [exact (number_errors_prefix v sch p m H)|].
  apply in_app_or in H as [H|H]; [|apply in_app_or in H as [H|H]];
    [| |exact (enum_errors_prefix v sch p m H)].
  - destruct v as [| | | | |xs|]; try destruct H.
    destruct (sc_get sch "items") as [[]|]; try destruct H.
    destruct (items_errors_in_inv _ p xs 0 m H) as [i [x [Hx Hm]]].
    destruct (IH x _ _ m ltac:(pose proof (size_arr x xs Hx); lia) Hm) as [r ->].
    rewrite !str_app_assoc. eexists; reflexivity.
  - destruct v as [| | | | | |fs]; try destruct H.
    destruct (sc_get sch "properties") as [[]|]; try destruct H.
    destruct (props_errors_in_inv _ p fs m H) as [k [x [s [Hx Hm]]]].
    destruct (IH x _ _ m ltac:(pose proof (size_obj k x fs Hx); lia) Hm) as [r ->].
    rewrite !str_app_assoc. eexists; reflexivity.
Qed.

Lemma validateProperty_prefix : forall v sch p m,
  In m (validateProperty v sch p) -> exists r, m = (p ++ r)%string.
Proof. intros v sch p m. apply (validateProperty_prefix_n (S (jsval_size v))). lia. Qed.

Lemma str_app_inv_l : forall a b c : string, (a ++ b)%string = (a ++ c)%string -> b = c.
Proof.
  induction a as [|x a IH]; intros b c H; [exact H|]. injection H as H. now apply IH.
Qed.

Lemma validateProperty_empty_schema : forall v p, validateProperty v (Schema []) p = [].
Proof. intros [] p; reflexivity. Qed.

Lemma flag_property_reporting : forall k sch x m,
  prop_lookup flag_properties k = Some sch -> In m (validateProperty x sch k) ->
  In k ["key"; "name"; "active"; "description"; "filters";
        "ensure_experience_continues"; "variants"].
Proof.
  intros k sch x m Hl Hm. unfold prop_lookup in Hl.
  destruct (assoc flag_properties k) as [s|] eqn:Ea.
  - apply assoc_In in Ea. simpl in Ea.
    repeat (destruct Ea as [Ea|Ea]; [injection Ea as <- _; simpl; tauto|]). destruct Ea.
  - destruct (is_object_proto_member k); [|discriminate Hl].
    injection Hl as <-. rewrite validateProperty_empty_schema in Hm. destruct Hm.
Qed.

(** X13: every violation [validateSchema] reports on a flag object is of
    one of three kinds: [Missing required field: f] for one of the top-level
    fields [key], [name] and [active] that the object lacks (absent, undefined
    or null); [Unknown property: k] for a top-level key of the object that the
    schema does not declare; or a message that starts with the name of a
    declared top-level field present in the object. So a [Missing required
    field] violation always names a required top-level field the object
    lacks, and an [Unknown property] violation always names an undeclared
    top-level key: fields missing or unknown inside nested objects are never
    reported. *)
Theorem validateSchema_violation_kinds : forall fs,
  (forall m, In m (validateSchema (JObj fs) FLAG_SCHEMA) ->
    (exists f, In f ["key"; "name"; "active"] /\
       negb (js_in (JObj fs) f) || is_undefined_or_null (js_get (JObj fs) f) = true /\
       m = ("Missing required field: " ++ f)%string) \/
    (exists k x, In (k, x) fs /\ prop_lookup flag_properties k = None /\
       m = ("Unknown property: " ++ k)%string) \/
    (exists k x r, In (k, x) fs /\
       In k ["key"; "name"; "active"; "description"; "filters";
             "ensure_experience_continues"; "variants"] /\
       m = (k ++ r)%string)) /\
  (forall f, In ("Missing required field: " ++ f)%string
               (validateSchema (JObj fs) FLAG_SCHEMA) ->
    In f ["key"; "name"; "active"] /\
    negb (js_in (JObj fs) f) || is_undefined_or_null (js_get (JObj fs) f) = true) /\
  (forall k, In ("Unknown property: " ++ k)%string (validateSchema (JObj fs) FLAG_SCHEMA) ->
    exists x, In (k, x) fs /\ prop_lookup flag_properties k = None).
Proof.
  intro fs.
  assert (Hk : forall m, In m (validateSchema (JObj fs) FLAG_SCHEMA) ->
    (exists f, In f ["key"; "name"; "active"] /\
       negb (js_in (JObj fs) f) || is_undefined_or_null (js_get (JObj fs) f) = true /\
       m = ("Missing required field: " ++ f)%string) \/
    (exists k x, In (k, x) fs /\ prop_lookup flag_properties k = None /\
       m = ("Unknown property: " ++ k)%string) \/
    (exists k x r, In (k, x) fs /\
       In k ["key"; "name"; "active"; "description"; "filters";
             "ensure_experience_continues"; "variants"] /\
       m = (k ++ r)%string)).
  { intros m H. rewrite validateSchema_obj in H. apply in_app_or in H as [H|H].
    - left. unfold required_errors in H. apply in_flat_map in H as [f [Hf Hm]].
      exists f. split; [exact Hf|].
      destruct (_ || _) eqn:Ec in Hm; [|destruct Hm].
      destruct Hm as [<-|[]]. split; [exact Ec | reflexivity].
    - right. apply in_flat_map in H as [[k x] [Hin Hm]]. unfold entry_errors in Hm.
      destruct (prop_lookup flag_properties k) as [sch|] eqn:El.
      + right. destruct (validateProperty_prefix x sch k m Hm) as [r ->].
        exists k, x, r. split; [exact Hin|]. split; [|reflexivity].
        exact (flag_property_reporting k sch x _ El Hm).
      + left. destruct Hm as [<-|[]]. exists k, x. auto. }
  split; [exact Hk|]. split.
  - intros f H. destruct (Hk _ H) as [[f' [Hf [Hc E]]]|[[k [x [_ [_ E]]]]|[k [x [r [_ [Hin E]]]]]]].
    + apply str_app_inv_l in E. subst f'. auto.
    + simpl in E. discriminate E.
    + simpl in Hin. repeat (destruct Hin as [<-|Hin]; [simpl in E; discriminate E|]).
      destruct Hin.
  - intros k H. destruct (Hk _ H) as [[f [_ [_ E]]]|[[k' [x [Hin [Hl E]]]]|[k' [x [r [_ [Hin E]]]]]]].
    + simpl in E. discriminate E.
    + apply str_app_inv_l in E. subst k'. eauto.
    + simpl in Hin. repeat (destruct Hin as [<-|Hin]; [simpl in E; discriminate E|]).
      destruct Hin.
Qed.

(** X14: the conditions of a filter group are not checked beyond their
    declared properties: adding to a valid flag object without [filters]
    the entry [filters: {groups: [{properties: [{value: v}]}]}] keeps it
    valid for every value [v] (null, an object, ...), although the schema
    declares [key] and [value] required in a condition and lists the types
    [value] may have under [oneOf]. *)
Theorem validateFlagSchema_condition_unchecked : forall fields v fn,
  validateSchema (JObj fields) FLAG_SCHEMA = [] -> assoc fields "filters" = None ->
  let d := JObj (app fields [("filters", JObj [("groups", JArr [JObj [("properties",
             JArr [JObj [("value", v)]])]])])]) in
  validateFlagSchema d fn = Ok d.
Proof.
  intros fields v fn H _ d. apply validateFlagSchema_ok. unfold d.
  rewrite validateSchema_snoc by (simpl; intuition discriminate). rewrite H.
  destruct v; reflexivity.
Qed.

(** ** Instances of the extra properties *)

Lemma validateDirectoryPath_canonical_witness :
  validateDirectoryPath "/" (JStr "feature-flags") "/home/user/project"
    = Ok "/home/user/project/feature-flags" /\
  normalize "/home/user/project/feature-flags" = "/home/user/project/feature-flags".
Proof.
  assert (H : validateDirectoryPath "/" (JStr "feature-flags") "/home/user/project"
                = Ok "/home/user/project/feature-flags") by (vm_compute; reflexivity).
  split; [exact H|].
  exact (proj1 (proj2 (validateDirectoryPath_canonical "/" eq_refl _ _ _ H))).
Defined.

Lemma validateConfig_spec_witness :
  validateConfig JNull = Throw (mkValidationError msg_config_not_object [] (Some [("config", JNull)])).
Proof. apply (proj1 validateConfig_spec JNull). simpl. exact I. Defined.

Lemma loadConfig_result_valid_witness :
  loadConfig "/" (fun _ => None) (fun _ => false) (fun _ => JUndefined) "hogsync.config.js"
    = Loaded (defaultConfig (fun _ => None)) /\
  validateConfig (defaultConfig (fun _ => None)) = Ok tt.
Proof.
  assert (H : loadConfig "/" (fun _ => None) (fun _ => false) (fun _ => JUndefined)
                "hogsync.config.js" = Loaded (defaultConfig (fun _ => None)))
    by (vm_compute; reflexivity).
  split; [exact H|]. exact (loadConfig_result_valid _ _ _ _ _ _ H).
Defined.

Lemma loadConfig_merge_witness :
  loadConfig "/" (fun _ => None) (fun _ => true)
    (fun _ => JObj [("generation", JObj [("namingConvention", JStr "camelCase")])])
    "hogsync.config.js"
  = Loaded (mergedConfig (fun _ => None)
              (JObj [("generation", JObj [("namingConvention", JStr "camelCase")])])) /\
  (forall e, loadConfig "/" (fun _ => None) (fun _ => true)
               (fun _ => JObj [("flagsDir", JStr "")]) "hogsync.config.js" = LoadThrows e ->
     ~ In "posthog configuration must be an object" (ve_validationErrors e)).
Proof.
  split.
  - apply (proj2 (loadConfig_merge "/" (fun _ => None) (fun _ => true)
             (fun _ => JObj [("generation", JObj [("namingConvention", JStr "camelCase")])])
             "hogsync.config.js") "/hogsync.config.js").
    + vm_compute. reflexivity.
    + reflexivity.
    + reflexivity.
    + discriminate.
    + intros kv H. simpl in H. destruct H as [<-|[]]. simpl. intuition discriminate.
  - exact (proj1 (loadConfig_merge "/" (fun _ => None) (fun _ => true)
             (fun _ => JObj [("flagsDir", JStr "")]) "hogsync.config.js")).
Defined.

Lemma formatConstantName_snake_injective_witness :
  formatConstantName (fun s => s) "snake_case" (JStr "dark-mode") = Some "dark_mode" /\
  "dark-mode" = "dark-mode".
Proof.
  split; [vm_compute; reflexivity|].
  apply (formatConstantName_snake_injective (fun s => s) "snake_case");
    [discriminate | discriminate | vm_compute; reflexivity | vm_compute; reflexivity |
     reflexivity].
Defined.

Lemma formatConstantName_camel_collisions_witness :
  formatConstantName (fun s => s) "camelCase" (JStr "dark-mode")
    = formatConstantName (fun s => s) "camelCase" (JStr "darkmode").
Proof.
  apply (formatConstantName_camel_collisions (fun s => s) "dark-mode" "darkmode");
    [vm_compute; reflexivity | vm_compute; reflexivity | reflexivity].
Defined.

Lemma validateFlagSchema_error_text_witness :
  getFormattedMessage (fun _ => "")
    (mkValidationError "Feature flag validation failed in flags/a.json"
       ["Data must be an object"] (Some [("fileName", JStr "flags/a.json")]))
  = "[VALIDATION_ERROR] Feature flag validation failed in flags/a.json (fileName: flags/a.json)".
Proof.
  apply (proj1 (validateFlagSchema_error_text (fun _ => "") JNull
           (mkValidationError "Feature flag validation failed in flags/a.json"
              ["Data must be an object"] (Some [("fileName", JStr "flags/a.json")])))
           "flags/a.json");
    [discriminate | vm_compute; reflexivity].
Defined.

Lemma validateFlagSchema_name_length_witness :
  errors_of (validateFlagSchema
    (JObj [("key", JStr "a"); ("name", JStr ""); ("active", JBool true)]) None)
  = ["name must be at least 1 characters long"].
Proof.
  apply (proj1 (validateFlagSchema_name_length [("key", JStr "a")] [("active", JBool true)]
                  "" None ltac:(vm_compute; reflexivity))).
Defined.

Lemma validateFlagSchema_description_length_witness :
  validateFlagSchema (JObj [("key", JStr "a"); ("name", JStr "A"); ("active", JBool true);
                            ("description", JStr "")]) None
  = Ok (JObj [("key", JStr "a"); ("name", JStr "A"); ("active", JBool true);
              ("description", JStr "")]).
Proof.
  apply (proj2 (proj2 (validateFlagSchema_description_length
           [("key", JStr "a"); ("name", JStr "A"); ("active", JBool true)] "" None
           ltac:(vm_compute; reflexivity) ltac:(reflexivity)))).
  simpl. lia.
Defined.

Lemma validateFlagSchema_condition_unchecked_witness :
  validateFlagSchema (JObj [("key", JStr "a"); ("name", JStr "A"); ("active", JBool true);
    ("filters", JObj [("groups", JArr [JObj [("properties", JArr [JObj [("value", JNull)]])]])])])
    None
  = Ok (JObj [("key", JStr "a"); ("name", JStr "A"); ("active", JBool true);
    ("filters", JObj [("groups", JArr [JObj [("properties", JArr [JObj [("value", JNull)]])]])])]).
Proof.
  exact (validateFlagSchema_condition_unchecked
           [("key", JStr "a"); ("name", JStr "A"); ("active", JBool true)] JNull None
           ltac:(vm_compute; reflexivity) ltac:(reflexivity)).
Defined.

Lemma validateSchema_violation_kinds_witness :
  In "Missing required field: key"
     (validateSchema (JObj [("name", JStr "A"); ("active", JBool true);
                            ("variants", JArr [JObj [("name", JStr "B")]])]) FLAG_SCHEMA) /\
  In "key" ["key"; "name"; "active"] /\
  negb (js_in (JObj [("name", JStr "A"); ("active", JBool true);
                     ("variants", JArr [JObj [("name", JStr "B")]])]) "key")
  || is_undefined_or_null (js_get (JObj [("name", JStr "A"); ("active", JBool true);
                     ("variants", JArr [JObj [("name", JStr "B")]])]) "key") = true.
Proof.
  assert (H : In ("Missing required field: " ++ "key")%string
     (validateSchema (JObj [("name", JStr "A"); ("active", JBool true);
                            ("variants", JArr [JObj [("name", JStr "B")]])]) FLAG_SCHEMA))
    by (vm_compute; auto).
  split; [exact H|].
  exact (proj1 (proj2 (validateSchema_violation_kinds _)) "key" H).
Defined.
